(** * Servo-Motor-Test: the interrupt-driven command/control loop

    A shallow embedding of the servo test firmware (the main program and
    [initializations.c]) and the properties of its command dispatcher,
    heartbeat handler, console handler, button gate and servo range
    arithmetic.

    Conventions.
    - A [uint32_t] is a [Z] in [0, 2^32); every C operation that can leave
      that range is followed by [wrap32].
    - The global variables of the program are the fields of [State], under
      their source names.  Calls into the peripheral driver library are
      recorded, in program order, in the [hw] field.
    - A [char] is an [ascii]; a [float] or [double] is a [spec_float]
      (binary32: precision 24, binary64: precision 53). *)

From Stdlib Require Import ZArith List String Ascii Bool Lia.
From Stdlib Require Import Floats.SpecFloat.
Import ListNotations.

Local Open Scope Z_scope.

(** ** 32-bit unsigned arithmetic *)

Module UInt32.

Definition modulus : Z := 2 ^ 32.

Definition wrap32 (x : Z) : Z := x mod modulus.

Definition in_range (x : Z) : Prop := 0 <= x < modulus.

Definition add32 (a b : Z) : Z := wrap32 (a + b).
Definition sub32 (a b : Z) : Z := wrap32 (a - b).
Definition mul32 (a b : Z) : Z := wrap32 (a * b).
Definition div32 (a b : Z) : Z := a / b.

Lemma modulus_eq : modulus = 4294967296.
Proof. reflexivity. Qed.

Lemma wrap32_range x : in_range (wrap32 x).
Proof. unfold in_range, wrap32. apply Z.mod_pos_bound. reflexivity. Qed.

Lemma wrap32_small x : in_range x -> wrap32 x = x.
Proof. unfold in_range, wrap32. intros H. now apply Z.mod_small. Qed.

Lemma wrap32_idem x : wrap32 (wrap32 x) = wrap32 x.
Proof. apply wrap32_small, wrap32_range. Qed.

Lemma add32_wrap_l a b : add32 (wrap32 a) b = wrap32 (a + b).
Proof. unfold add32, wrap32. now rewrite Z.add_mod_idemp_l. Qed.

Lemma sub32_borrow a b :
  in_range a -> in_range b -> a < b -> sub32 a b = a - b + modulus.
Proof.
  unfold in_range, sub32, wrap32. intros Ha Hb Hlt.
  symmetry. apply (Z.mod_unique_pos _ _ (-1)). lia. lia.
Qed.

Lemma sub32_no_borrow a b :
  in_range a -> in_range b -> b <= a -> sub32 a b = a - b.
Proof.
  unfold in_range, sub32, wrap32. intros Ha Hb Hle.
  apply Z.mod_small. lia.
Qed.

End UInt32.
Import UInt32.

(** ** Peripheral driver calls

    The pin, port and PWM output macros come from [APOPHIS_pin_map.h]; they
    are kept symbolic. *)

Inductive led_port := LED_PORT1 | LED_PORT2.
Inductive led_pin := LED1_PIN | LED2_PIN | LED3_PIN | LED4_PIN.
Inductive servo_out := SERVO_1 | SERVO_2.

(** [GPIOPinWrite port pins val]: [pins] is the set of pins addressed and
    [val] the subset of them driven high. *)
Inductive HwCall :=
| GPIOPinWrite (port : led_port) (pins val : list led_pin)
| PWMPulseWidthSet (out : servo_out) (width : Z)
| PWMGenPeriodSet (period : Z)
| PWMOutputState (enable : bool)
| PWMGenEnable
| UARTprintf (fmt : string) (args : list Z)
| UARTIntClear (status : Z)
| UARTCharPutNonBlocking (c : ascii)
| SysTickPeriodSet (period : Z)
| SysTickEnable
| IntMasterEnable
| IntMasterDisable.

(** ** Global variables *)

Record State := mkState {
  g_LEDON : bool;
  g_SysTickCount : Z;
  g_LED4On : bool;
  g_SysClockSpeed : Z;
  g_CharConsole : ascii;
  g_ConsoleFlag : bool;
  g_Quit : bool;
  g_RadioCount : Z;
  g_StartPosition : Z;
  g_EndPosition : Z;
  g_ui32AngleIncrement : Z;
  g_ui32ServoAngle : Z;
  hw : list HwCall
}.

(** The values the globals are initialised with at their declaration. *)
Definition initial_state : State :=
  {| g_LEDON := false; g_SysTickCount := 0; g_LED4On := false;
     g_SysClockSpeed := 0; g_CharConsole := zero; g_ConsoleFlag := false;
     g_Quit := false; g_RadioCount := 0;
     g_StartPosition := 0; g_EndPosition := 0; g_ui32AngleIncrement := 0;
     g_ui32ServoAngle := 0; hw := [] |}.

Definition set_SysTickCount (v : Z) (st : State) : State :=
  mkState (g_LEDON st) v (g_LED4On st) (g_SysClockSpeed st) (g_CharConsole st)
    (g_ConsoleFlag st) (g_Quit st) (g_RadioCount st) (g_StartPosition st)
    (g_EndPosition st) (g_ui32AngleIncrement st) (g_ui32ServoAngle st) (hw st).

Definition set_LED4On (v : bool) (st : State) : State :=
  mkState (g_LEDON st) (g_SysTickCount st) v (g_SysClockSpeed st)
    (g_CharConsole st) (g_ConsoleFlag st) (g_Quit st) (g_RadioCount st)
    (g_StartPosition st) (g_EndPosition st) (g_ui32AngleIncrement st)
    (g_ui32ServoAngle st) (hw st).

Definition set_SysClockSpeed (v : Z) (st : State) : State :=
  mkState (g_LEDON st) (g_SysTickCount st) (g_LED4On st) v
    (g_CharConsole st) (g_ConsoleFlag st) (g_Quit st) (g_RadioCount st)
    (g_StartPosition st) (g_EndPosition st) (g_ui32AngleIncrement st)
    (g_ui32ServoAngle st) (hw st).

Definition set_CharConsole (v : ascii) (st : State) : State :=
  mkState (g_LEDON st) (g_SysTickCount st) (g_LED4On st) (g_SysClockSpeed st)
    v (g_ConsoleFlag st) (g_Quit st) (g_RadioCount st) (g_StartPosition st)
    (g_EndPosition st) (g_ui32AngleIncrement st) (g_ui32ServoAngle st) (hw st).

Definition set_ConsoleFlag (v : bool) (st : State) : State :=
  mkState (g_LEDON st) (g_SysTickCount st) (g_LED4On st) (g_SysClockSpeed st)
    (g_CharConsole st) v (g_Quit st) (g_RadioCount st) (g_StartPosition st)
    (g_EndPosition st) (g_ui32AngleIncrement st) (g_ui32ServoAngle st) (hw st).

Definition set_Quit (v : bool) (st : State) : State :=
  mkState (g_LEDON st) (g_SysTickCount st) (g_LED4On st) (g_SysClockSpeed st)
    (g_CharConsole st) (g_ConsoleFlag st) v (g_RadioCount st)
    (g_StartPosition st) (g_EndPosition st) (g_ui32AngleIncrement st)
    (g_ui32ServoAngle st) (hw st).

Definition set_StartPosition (v : Z) (st : State) : State :=
  mkState (g_LEDON st) (g_SysTickCount st) (g_LED4On st) (g_SysClockSpeed st)
    (g_CharConsole st) (g_ConsoleFlag st) (g_Quit st) (g_RadioCount st) v
    (g_EndPosition st) (g_ui32AngleIncrement st) (g_ui32ServoAngle st) (hw st).

Definition set_EndPosition (v : Z) (st : State) : State :=
  mkState (g_LEDON st) (g_SysTickCount st) (g_LED4On st) (g_SysClockSpeed st)
    (g_CharConsole st) (g_ConsoleFlag st) (g_Quit st) (g_RadioCount st)
    (g_StartPosition st) v (g_ui32AngleIncrement st) (g_ui32ServoAngle st)
    (hw st).

Definition set_AngleIncrement (v : Z) (st : State) : State :=
  mkState (g_LEDON st) (g_SysTickCount st) (g_LED4On st) (g_SysClockSpeed st)
    (g_CharConsole st) (g_ConsoleFlag st) (g_Quit st) (g_RadioCount st)
    (g_StartPosition st) (g_EndPosition st) v (g_ui32ServoAngle st) (hw st).

Definition set_ServoAngle (v : Z) (st : State) : State :=
  mkState (g_LEDON st) (g_SysTickCount st) (g_LED4On st) (g_SysClockSpeed st)
    (g_CharConsole st) (g_ConsoleFlag st) (g_Quit st) (g_RadioCount st)
    (g_StartPosition st) (g_EndPosition st) (g_ui32AngleIncrement st) v
    (hw st).

(** A driver call appends to the record of calls and touches no global. *)
Definition call (c : HwCall) (st : State) : State :=
  mkState (g_LEDON st) (g_SysTickCount st) (g_LED4On st) (g_SysClockSpeed st)
    (g_CharConsole st) (g_ConsoleFlag st) (g_Quit st) (g_RadioCount st)
    (g_StartPosition st) (g_EndPosition st) (g_ui32AngleIncrement st)
    (g_ui32ServoAngle st) (hw st ++ [c]).

(** Statements are state transformers; [s1 ;; s2] runs [s1] then [s2]. *)
Definition Stmt := State -> State.

Definition seq (s1 s2 : Stmt) : Stmt := fun st => s2 (s1 st).
Notation "s1 ;; s2" := (seq s1 s2) (at level 61, right associativity).

Definition skip : Stmt := fun st => st.

(** ** LEDs *)

Definition TurnOnLED (LEDNum : Z) : Stmt :=
  match LEDNum with
  | 1 => call (GPIOPinWrite LED_PORT1 [LED1_PIN] [LED1_PIN])
  | 2 => call (GPIOPinWrite LED_PORT1 [LED2_PIN] [LED2_PIN])
  | 3 => call (GPIOPinWrite LED_PORT2 [LED3_PIN] [LED3_PIN])
  | 4 => call (GPIOPinWrite LED_PORT2 [LED4_PIN] [LED4_PIN])
  | _ =>
      call (GPIOPinWrite LED_PORT1 [LED1_PIN; LED2_PIN] [LED1_PIN; LED2_PIN]) ;;
      call (GPIOPinWrite LED_PORT2 [LED3_PIN; LED4_PIN] [LED3_PIN; LED4_PIN])
  end.

Definition TurnOffLED (LEDNum : Z) : Stmt :=
  match LEDNum with
  | 1 => call (GPIOPinWrite LED_PORT1 [LED1_PIN] [])
  | 2 => call (GPIOPinWrite LED_PORT1 [LED2_PIN] [])
  | 3 => call (GPIOPinWrite LED_PORT2 [LED3_PIN] [])
  | 4 => call (GPIOPinWrite LED_PORT2 [LED4_PIN] [])
  | _ =>
      call (GPIOPinWrite LED_PORT1 [LED1_PIN; LED2_PIN] []) ;;
      call (GPIOPinWrite LED_PORT2 [LED3_PIN; LED4_PIN] [])
  end.

(** ** The command dispatcher *)

Definition CR : ascii := ascii_of_nat 13.
Definition LF : ascii := ascii_of_nat 10.
Definition CRLF : string := String CR (String LF EmptyString).

Definition menu_text : list string :=
  [ ("Menu:" ++ CRLF ++ "M - Print this menu." ++ CRLF)%string;
    ("Q - Quit this program." ++ CRLF)%string;
    ("w - Increase servo angle (CW)." ++ CRLF)%string;
    ("s - Decrease servo angle (CCW)." ++ CRLF)%string;
    ("x - Reset the servo angle." ++ CRLF)%string;
    ("e - Set servo angle furthest CCW." ++ CRLF)%string ].

Definition print_all (lines : list string) : Stmt :=
  fun st => fold_left (fun s l => call (UARTprintf l []) s) lines st.

(** Both servo outputs receive the current value of [g_ui32ServoAngle]. *)
Definition push_angle : Stmt :=
  (fun st => call (PWMPulseWidthSet SERVO_1 (g_ui32ServoAngle st)) st) ;;
  (fun st => call (PWMPulseWidthSet SERVO_2 (g_ui32ServoAngle st)) st).

Definition report (label : string) : Stmt :=
  fun st =>
    call (UARTprintf (label ++ ": %d" ++ CRLF)%string [g_ui32ServoAngle st]) st.

Definition Menu (charReceived : ascii) : Stmt :=
  (if (charReceived =? "Q")%char then
     set_Quit true
   else if (charReceived =? "M")%char then
     print_all menu_text
   else if (charReceived =? "w")%char then
     (fun st =>
        set_ServoAngle
          (add32 (g_ui32ServoAngle st) (g_ui32AngleIncrement st)) st) ;;
     push_angle ;;
     report "Angle Increase"
   else if (charReceived =? "s")%char then
     (fun st =>
        set_ServoAngle
          (sub32 (g_ui32ServoAngle st) (g_ui32AngleIncrement st)) st) ;;
     push_angle ;;
     report "Angle Decrease"
   else if (charReceived =? "x")%char then
     (fun st => set_ServoAngle (g_StartPosition st) st) ;;
     push_angle ;;
     report "Start Position"
   else if (charReceived =? "e")%char then
     (fun st => set_ServoAngle (g_EndPosition st) st) ;;
     push_angle ;;
     report "End Position"
   else
     skip) ;;
  set_ConsoleFlag false.

(** ** Interrupt handlers *)

Definition SysTickIntHandler : Stmt :=
  fun st =>
    if 5 <=? g_SysTickCount st then
      ((if g_LED4On st
        then TurnOffLED 4 ;; set_LED4On false
        else TurnOnLED 4 ;; set_LED4On true) ;;
       set_SysTickCount 0) st
    else
      set_SysTickCount (wrap32 (g_SysTickCount st + 1)) st.

(** [UARTCharGetNonBlocking] returns an [int32_t] (the byte, or -1 when the
    receive FIFO is empty); the assignment to a [char] keeps its low byte. *)
Definition char_of_int32 (v : Z) : ascii := ascii_of_N (Z.to_N (v mod 256)).

(** The two values the handler reads from the UART are its inputs:
    [status] from [UARTIntStatus] and [rx] from [UARTCharGetNonBlocking]. *)
Definition ConsoleIntHandler (status rx : Z) : Stmt :=
  call (UARTIntClear status) ;;
  set_CharConsole (char_of_int32 rx) ;;
  (fun st => call (UARTCharPutNonBlocking (g_CharConsole st)) st) ;;
  (fun st => Menu (g_CharConsole st) st).

(** ** Floating point

    [float] is IEEE binary32 and [double] is IEEE binary64, both rounding to
    nearest, ties to even; the operations are those of the standard
    library's executable specification. *)

Module Float.

Definition bind {A B : Type} (o : option A) (f : A -> option B) : option B :=
  match o with
  | Some a => f a
  | None => None
  end.

(** Conversion of a [uint32_t] to [float]. *)
Definition float_of_uint32 (n : Z) : spec_float :=
  binary_normalize 24 128 n 0 false.

(** Promotion of a [float] to [double]: the same number, renormalised. *)
Definition double_of_float (f : spec_float) : spec_float :=
  match f with
  | S754_finite s m e => binary_normalize 53 1024 (cond_Zopp s (Zpos m)) e s
  | _ => f
  end.

(** The [double] constant written [0.025]: the binary64 number nearest to
    1/40, namely 7205759403792794 * 2^-58. *)
Definition double_0_025 : spec_float :=
  S754_finite false 7205759403792794 (-58).

Definition double_mul : spec_float -> spec_float -> spec_float :=
  SFmul 53 1024.

(** The integer part of a finite number (rounding toward zero). *)
Definition trunc (f : spec_float) : option Z :=
  match f with
  | S754_zero _ => Some 0
  | S754_finite s m e =>
      Some (cond_Zopp s
              (if 0 <=? e then Zpos m * 2 ^ e else Zpos m / 2 ^ (- e)))
  | _ => None
  end.

(** Conversion to [uint32_t]; C leaves it undefined when the integer part
    is not representable, which is [None] here. *)
Definition uint32_of_float (f : spec_float) : option Z :=
  bind (trunc f)
    (fun v => if (0 <=? v) && (v <? modulus) then Some v else None).

End Float.
Import Float.

Notation "x <- c1 ;;; c2" := (bind c1 (fun x => c2))
  (at level 62, c1 at next level, right associativity).

(** ** The program

    [SERVO_FREQUENCY] comes from [APOPHIS_pin_map.h] and the button masks
    from [misc/buttons.h]; they are parameters of the program.
    [SERVO_FREQUENCY] is taken to be an integer constant. *)

Section Program.

Variable SERVO_FREQUENCY : Z.
Variables LEFT_BUTTON RIGHT_BUTTON ALL_BUTTONS : Z.

(** *** Servo bring-up

    [stuff] is what [PWMGenPeriodGet] reads back; it is only printed.
    The pin and clock configuration calls carry no program data and are
    left out.  The result is the [float] period converted to the
    [uint32_t] return type. *)
Definition InitServoMtrs (sysClockSpeed stuff : Z) (st : State)
  : option (Z * State) :=
  let st := call (UARTprintf ("Initializing servo motors..." ++
                              String LF (String CR EmptyString)) []) st in
  if SERVO_FREQUENCY =? 0 then None else
  let speed := float_of_uint32 (sysClockSpeed / 64 / SERVO_FREQUENCY) in
  period <- uint32_of_float speed ;;;
  let st := call (PWMGenPeriodSet period) st in
  let st := call (UARTprintf ("PWM generator period: %d" ++ CRLF) [stuff])
              st in
  width <- uint32_of_float
             (double_mul (double_of_float speed) double_0_025) ;;;
  let st := call (PWMPulseWidthSet SERVO_1 width) st in
  let st := call (PWMPulseWidthSet SERVO_2 width) st in
  let st := call (PWMOutputState true) st in
  let st := call (UARTprintf ("Done!" ++ String LF (String CR EmptyString))
                    []) st in
  ret <- uint32_of_float speed ;;;
  Some (ret, st).

(** The part of [main] that derives the servo range from the value
    returned by [InitServoMtrs], which it first stores in a [float]. *)
Definition servo_range (ret : Z) (st : State) : option State :=
  let speed := float_of_uint32 ret in
  start <- uint32_of_float
             (double_mul (double_of_float speed) double_0_025) ;;;
  let st := set_StartPosition start st in
  let st := set_EndPosition (mul32 (g_StartPosition st) 5) st in
  let st := set_AngleIncrement
              (div32 (sub32 (g_EndPosition st) (g_StartPosition st)) 100)
              st in
  Some (set_ServoAngle (g_StartPosition st) st).

(** *** The button gate

    [polls] are the successive results of [ButtonsPoll].  The result is
    the index of the poll after which the function returned, [None] while
    it is still polling. *)
Fixpoint wait_while (mask : Z) (actualButtonState : Z) (polls : list Z)
  (n : nat) : option nat :=
  if actualButtonState =? mask then Some n
  else match polls with
       | [] => None
       | p :: rest => wait_while mask (Z.land p mask) rest (S n)
       end.

Definition WaitForButtonPress (desiredButtonState : Z) (polls : list Z)
  : option nat :=
  match polls with
  | [] => None
  | actualButtonState :: rest =>
      if desiredButtonState =? LEFT_BUTTON then
        wait_while LEFT_BUTTON actualButtonState rest 0
      else if desiredButtonState =? RIGHT_BUTTON then
        wait_while RIGHT_BUTTON actualButtonState rest 0
      else if desiredButtonState =? ALL_BUTTONS then
        wait_while ALL_BUTTONS actualButtonState rest 0
      else Some 0%nat
  end.

(** *** The main loop

    Interrupts are taken between statements of the loop; one element of
    the schedule is one turn of the loop followed by the interrupts taken
    before the next test of [g_Quit]. *)
Inductive Interrupt :=
| SysTick
| ConsoleRx (status rx : Z).

Definition handle (i : Interrupt) : Stmt :=
  match i with
  | SysTick => SysTickIntHandler
  | ConsoleRx status rx => ConsoleIntHandler status rx
  end.

Definition service (irqs : list Interrupt) : Stmt :=
  fun st => fold_left (fun s i => handle i s) irqs st.

Definition loop_body : Stmt :=
  fun st => if g_ConsoleFlag st then Menu (g_CharConsole st) st else st.

Fixpoint main_loop (sched : list (list Interrupt)) (st : State)
  : option State :=
  if g_Quit st then Some st
  else match sched with
       | [] => None
       | irqs :: sched' => main_loop sched' (service irqs (loop_body st))
       end.

Definition shutdown_message : string :=
  ("Dave, I'm scared. Will I dream?" ++ CRLF)%string.

(** What [main] does once the loop has ended. *)
Definition shutdown : Stmt :=
  Menu "x" ;;
  call (UARTprintf shutdown_message []) ;;
  TurnOffLED 5 ;;
  call IntMasterDisable.

(** [main], from the loop on. *)
Definition run (sched : list (list Interrupt)) (st : State) : option State :=
  st' <- main_loop sched st ;;; Some (shutdown st').

(** The whole of [main].  [clk] is the clock frequency returned by
    [SysCtlClockFreqSet], [polls] the successive results of [ButtonsPoll]
    and [sched] the interrupts taken once they are enabled.  Of [InitLED],
    [ButtonsInit] and [InitConsole] only the calls that carry program data
    are kept. *)
Definition main (clk stuff : Z) (polls : list Z)
  (sched : list (list Interrupt)) : option State :=
  let st := set_SysClockSpeed clk initial_state in
  let st := call IntMasterDisable st in
  let st := call (SysTickPeriodSet clk) st in
  let st := TurnOffLED 5 st in
  let st := TurnOnLED 1 st in
  let st := call (UARTprintf ("Clock speed: %d" ++ CRLF) [clk]) st in
  r <- InitServoMtrs clk stuff st ;;;
  st <- servo_range (fst r) (snd r) ;;;
  let st := call (UARTprintf ("Initialization Complete!" ++ CRLF ++
                              "Press left button to start." ++ CRLF) [])
              st in
  let st := TurnOnLED 5 st in
  _ <- WaitForButtonPress LEFT_BUTTON polls ;;;
  let st := TurnOffLED 5 st in
  let st := TurnOffLED 1 st in
  let st := call (SysTickPeriodSet (g_SysClockSpeed st / 12)) st in
  let st := call SysTickEnable st in
  let st := call PWMGenEnable st in
  let st := Menu "M" st in
  let st := call IntMasterEnable st in
  run sched st.

End Program.

(** * Properties *)

(** ** Reference states

    [bring_up P] is the state of the globals once [main] has derived the
    servo range from the period [P]; [example_state] is that state for
    P = 37500 (120 MHz / 64 / 50 Hz). *)

Definition bring_up (P : Z) : State :=
  match servo_range P initial_state with
  | Some st => st
  | None => initial_state
  end.

Definition example_state : State := bring_up 37500.

Definition repeat_cmd (c : ascii) (n : N) : Stmt :=
  fun st => N.iter n (Menu c) st.

Definition ticks (n : N) : Stmt :=
  fun st => N.iter n SysTickIntHandler st.

(** The globals, without the record of driver calls. *)
Definition globals (st : State) :=
  (g_LEDON st, g_SysTickCount st, g_LED4On st, g_SysClockSpeed st,
   g_CharConsole st, g_ConsoleFlag st, g_Quit st, g_RadioCount st,
   g_StartPosition st, g_EndPosition st, g_ui32AngleIncrement st,
   g_ui32ServoAngle st).

(** A complete run of [main]: 120 MHz clock, 50 Hz servo frequency, the
    left button (bit 0) down at the second poll, then ['w'] and ['Q']
    received.  The range is 937 .. 4685 in steps of 37, and the angle is
    back at the start position when [main] returns. *)
Example main_sample_run :
  option_map globals
    (main 50 1 2 3 120000000 37500 [0; 1]
       [[SysTick]; [ConsoleRx 0 119]; [ConsoleRx 0 81]])
  = Some (false, 1, false, 120000000, "Q"%char, false, true, 0,
          937, 4685, 37, 937).
Proof. vm_compute. reflexivity. Qed.

(** The globals that the dispatcher never assigns. *)
Definition dispatcher_frame (st st' : State) : Prop :=
  g_LEDON st' = g_LEDON st /\
  g_SysTickCount st' = g_SysTickCount st /\
  g_LED4On st' = g_LED4On st /\
  g_SysClockSpeed st' = g_SysClockSpeed st /\
  g_CharConsole st' = g_CharConsole st /\
  g_RadioCount st' = g_RadioCount st /\
  g_StartPosition st' = g_StartPosition st /\
  g_EndPosition st' = g_EndPosition st /\
  g_ui32AngleIncrement st' = g_ui32AngleIncrement st.

(** The driver calls of a servo command that leaves the angle at [v]. *)
Definition servo_calls (label : string) (v : Z) : list HwCall :=
  [ PWMPulseWidthSet SERVO_1 v; PWMPulseWidthSet SERVO_2 v;
    UARTprintf (label ++ ": %d" ++ CRLF)%string [v] ].

Definition is_command (c : ascii) : bool :=
  existsb (Ascii.eqb c) ["Q"; "M"; "w"; "s"; "x"; "e"]%char.

(** ** Equations of the dispatcher *)

Lemma app_calls (l : list HwCall) a b c : ((l ++ [a]) ++ [b]) ++ [c] = l ++ [a; b; c].
Proof. now rewrite <- !app_assoc. Qed.

Lemma Menu_other c st :
  is_command c = false -> Menu c st = set_ConsoleFlag false st.
Proof.
  unfold is_command, existsb, Menu, seq. intros H.
  repeat (apply orb_false_elim in H; destruct H as [-> H]). reflexivity.
Qed.

Lemma Menu_flag c st : g_ConsoleFlag (Menu c st) = false.
Proof. reflexivity. Qed.

Lemma Menu_frame c st : dispatcher_frame st (Menu c st).
Proof.
  unfold Menu, seq.
  repeat match goal with
         | |- context [if ?b then _ else _] => destruct b
         end; repeat split.
Qed.

Lemma Menu_w_angle st :
  g_ui32ServoAngle (Menu "w" st)
  = wrap32 (g_ui32ServoAngle st + g_ui32AngleIncrement st).
Proof. reflexivity. Qed.

Lemma Menu_s_angle st :
  g_ui32ServoAngle (Menu "s" st)
  = wrap32 (g_ui32ServoAngle st - g_ui32AngleIncrement st).
Proof. reflexivity. Qed.

Lemma Menu_hw_servo c label st :
  In (c, label)
     [ ("w"%char, "Angle Increase"%string); ("s"%char, "Angle Decrease"%string);
       ("x"%char, "Start Position"%string); ("e"%char, "End Position"%string) ] ->
  hw (Menu c st) = hw st ++ servo_calls label (g_ui32ServoAngle (Menu c st)).
Proof.
  intros H. simpl in H.
  repeat (destruct H as [H | H]; [injection H as <- <-; apply app_calls |]).
  contradiction.
Qed.

Lemma repeat_cmd_succ c n st :
  repeat_cmd c (N.succ n) st = Menu c (repeat_cmd c n st).
Proof. unfold repeat_cmd. apply N.iter_succ. Qed.

Lemma repeat_cmd_frame c n st : dispatcher_frame st (repeat_cmd c n st).
Proof.
  induction n as [| n IH] using N.peano_ind.
  - repeat split.
  - rewrite repeat_cmd_succ.
    pose proof (Menu_frame c (repeat_cmd c n st)) as H.
    unfold dispatcher_frame in *.
    repeat match goal with
           | H : _ /\ _ |- _ => destruct H
           end.
    repeat split; congruence.
Qed.

(** Repeating the increase command adds the increment modulo 2^32. *)
Lemma repeat_w_angle n st :
  in_range (g_ui32ServoAngle st) ->
  g_ui32ServoAngle (repeat_cmd "w" n st)
  = wrap32 (g_ui32ServoAngle st + Z.of_N n * g_ui32AngleIncrement st).
Proof.
  intros Hr.
  induction n as [| n IH] using N.peano_ind.
  - cbn. rewrite Z.add_0_r. symmetry. now apply wrap32_small.
  - rewrite repeat_cmd_succ, Menu_w_angle, IH.
    destruct (repeat_cmd_frame "w" n st) as (_ & _ & _ & _ & _ & _ & _ & _ & ->).
    fold (add32 (wrap32 (g_ui32ServoAngle st
                         + Z.of_N n * g_ui32AngleIncrement st))
                (g_ui32AngleIncrement st)).
    rewrite add32_wrap_l. f_equal. lia.
Qed.

Definition commands : list ascii := ["Q"; "M"; "w"; "s"; "x"; "e"]%char.

Lemma is_command_In c : is_command c = true <-> In c commands.
Proof.
  unfold is_command. fold commands. rewrite existsb_exists. split.
  - intros (x & Hx & E). apply Ascii.eqb_eq in E. now subst.
  - intros H. exists c. split; [assumption | apply Ascii.eqb_refl].
Qed.

Lemma not_command c : ~ In c commands -> is_command c = false.
Proof.
  intros H. destruct (is_command c) eqn:E; [| reflexivity].
  now apply is_command_In in E.
Qed.

(** The driver calls one dispatch adds to the record. *)
Definition Menu_calls (c : ascii) (st : State) : list HwCall :=
  if (c =? "M")%char then map (fun l => UARTprintf l []) menu_text
  else if (c =? "w")%char then
    servo_calls "Angle Increase" (g_ui32ServoAngle (Menu c st))
  else if (c =? "s")%char then
    servo_calls "Angle Decrease" (g_ui32ServoAngle (Menu c st))
  else if (c =? "x")%char then
    servo_calls "Start Position" (g_ui32ServoAngle (Menu c st))
  else if (c =? "e")%char then
    servo_calls "End Position" (g_ui32ServoAngle (Menu c st))
  else [].

Lemma Menu_hw c st : hw (Menu c st) = hw st ++ Menu_calls c st.
Proof.
  destruct (is_command c) eqn:E.
  - apply is_command_In in E. simpl in E.
    repeat (destruct E as [<- | E]);
      try contradiction; cbn; rewrite <- ?app_assoc, ?app_nil_r; reflexivity.
  - rewrite (Menu_other _ _ E). unfold is_command, existsb in E.
    unfold Menu_calls.
    repeat (apply orb_false_elim in E; destruct E as [? E]).
    repeat match goal with H : (c =? _)%char = false |- _ => rewrite H; clear H end.
    cbn. now rewrite app_nil_r.
Qed.

Definition is_gpio_write (e : HwCall) : bool :=
  match e with
  | GPIOPinWrite _ _ _ => true
  | _ => false
  end.


Lemma Menu_calls_no_gpio c st :
  forallb (fun e => negb (is_gpio_write e)) (Menu_calls c st) = true.
Proof.
  unfold Menu_calls.
  repeat match goal with
         | |- context [if ?b then _ else _] => destruct b
         end; reflexivity.
Qed.

(** Decides a closed range condition by evaluation. *)
Ltac closed_range :=
  split; [apply Z.leb_le | apply Z.ltb_lt]; vm_compute; reflexivity.

(** ** C1: the transition table of the dispatcher *)

(** C1 (as stated, refuted).  With the range of period 37500, after 25
    decrease commands the angle is 12 and the increment 37; one more
    decrease command leaves 4294967271 in the angle, which is not
    [12 - 37]. *)
Lemma Menu_s_not_plain_difference :
  let st := repeat_cmd "s" 25 example_state in
  g_ui32ServoAngle st = 12 /\ g_ui32AngleIncrement st = 37 /\
  g_ui32ServoAngle (Menu "s" st) = 4294967271 /\
  g_ui32ServoAngle (Menu "s" st)
  <> g_ui32ServoAngle st - g_ui32AngleIncrement st.
Proof. vm_compute. repeat split; discriminate. Qed.

(** C1 (amended).  For every character [c] and state [st], [Menu c]
    clears [g_ConsoleFlag] and leaves every global other than the angle, the
    quit flag and the console flag as it was; and
    - ['M'] prints the six menu strings and changes neither angle nor quit;
    - ['Q'] sets [g_Quit] and makes no driver call;
    - ['w'] sets the angle to (angle + increment) mod 2^32, writes it to
      both servo outputs and prints it;
    - ['s'] sets the angle to (angle - increment) mod 2^32, writes it to
      both servo outputs and prints it;
    - ['x'] sets the angle to the start position, writes and prints it;
    - ['e'] sets the angle to the end position, writes and prints it;
    - any other character changes neither angle nor quit and makes no
      driver call. *)
Theorem Menu_transition_table (c : ascii) (st : State) :
  let st' := Menu c st in
  let a := g_ui32ServoAngle st in
  let a' := g_ui32ServoAngle st' in
  g_ConsoleFlag st' = false /\
  dispatcher_frame st st' /\
  (c = "M"%char ->
     a' = a /\ g_Quit st' = g_Quit st /\
     hw st' = hw st ++ map (fun l => UARTprintf l []) menu_text) /\
  (c = "Q"%char -> g_Quit st' = true /\ a' = a /\ hw st' = hw st) /\
  (c = "w"%char ->
     a' = (a + g_ui32AngleIncrement st) mod 2 ^ 32 /\
     g_Quit st' = g_Quit st /\
     hw st' = hw st ++ servo_calls "Angle Increase" a') /\
  (c = "s"%char ->
     a' = (a - g_ui32AngleIncrement st) mod 2 ^ 32 /\
     g_Quit st' = g_Quit st /\
     hw st' = hw st ++ servo_calls "Angle Decrease" a') /\
  (c = "x"%char ->
     a' = g_StartPosition st /\ g_Quit st' = g_Quit st /\
     hw st' = hw st ++ servo_calls "Start Position" a') /\
  (c = "e"%char ->
     a' = g_EndPosition st /\ g_Quit st' = g_Quit st /\
     hw st' = hw st ++ servo_calls "End Position" a') /\
  (~ In c commands ->
     a' = a /\ g_Quit st' = g_Quit st /\ hw st' = hw st).
Proof.
  cbv zeta. split; [apply Menu_flag |]. split; [apply Menu_frame |].
  repeat apply conj;
    try (intros ->; rewrite ?Menu_hw; cbn; rewrite ?app_nil_r;
         repeat apply conj; reflexivity).
  intros H. apply not_command in H. now rewrite (Menu_other _ _ H).
Qed.

Lemma Menu_transition_table_witness :
  ~ In "z"%char commands /\
  g_ui32ServoAngle (Menu "z" example_state) = 937 /\
  g_Quit (Menu "z" example_state) = false /\
  hw (Menu "z" example_state) = [].
Proof.
  assert (H : ~ In "z"%char commands).
  { simpl. intros [E | [E | [E | [E | [E | [E | []]]]]]]; discriminate E. }
  split; [exact H |].
  exact (proj2 (proj2 (proj2 (proj2 (proj2 (proj2 (proj2 (proj2
           (Menu_transition_table "z" example_state)))))))) H).
Defined.

(** ** C6: repeated increase *)

(** C6 (as stated, refuted).  With the range of period 37500 (start 937,
    increment 37), after 116080172 increase commands the angle is 5, not
    937 + 116080172 * 37 = 4294967301. *)
Lemma repeat_w_overflow :
  g_ui32ServoAngle example_state = g_StartPosition example_state /\
  g_ui32ServoAngle (repeat_cmd "w" 116080172 example_state) = 5 /\
  g_ui32ServoAngle (repeat_cmd "w" 116080172 example_state)
  <> g_StartPosition example_state
     + 116080172 * g_ui32AngleIncrement example_state.
Proof.
  assert (R : in_range (g_ui32ServoAngle example_state))
    by closed_range.
  rewrite (repeat_w_angle _ _ R).
  vm_compute. repeat split; discriminate.
Qed.

(** C6 (amended).  From a state whose angle is the start position,
    [n] increase commands leave (start + n * increment) mod 2^32 in the
    angle; this is start + n * increment itself as long as that is below
    2^32, whatever the end position is. *)
Theorem repeat_w_additive (n : N) (st : State) :
  in_range (g_StartPosition st) ->
  g_ui32ServoAngle st = g_StartPosition st ->
  g_ui32ServoAngle (repeat_cmd "w" n st)
  = (g_StartPosition st + Z.of_N n * g_ui32AngleIncrement st) mod 2 ^ 32
  /\ (0 <= g_ui32AngleIncrement st ->
      g_StartPosition st + Z.of_N n * g_ui32AngleIncrement st < 2 ^ 32 ->
      g_ui32ServoAngle (repeat_cmd "w" n st)
      = g_StartPosition st + Z.of_N n * g_ui32AngleIncrement st).
Proof.
  intros Hr Ha. rewrite <- Ha in Hr.
  rewrite (repeat_w_angle n st Hr), Ha. split; [reflexivity |].
  intros Hi Hlt. apply wrap32_small.
  rewrite Ha in Hr. unfold in_range, modulus in *. nia.
Qed.

(** At 200 increase commands the angle is 8337, beyond the end position
    4685. *)
Lemma repeat_w_additive_witness :
  g_EndPosition example_state = 4685 /\
  g_ui32ServoAngle (repeat_cmd "w" 200 example_state) = 937 + 200 * 37.
Proof.
  split; [reflexivity |].
  refine (proj2 (repeat_w_additive 200 example_state _ _) _ _).
  - closed_range.
  - reflexivity.
  - vm_compute. discriminate.
  - reflexivity.
Defined.

(** ** C7: the absolute-position commands *)

(** C7.  From any state, after one and after two reset commands the angle
    is the start position, and after one and after two end commands it is
    the end position; the second command changes no global. *)
Theorem Menu_x_e_idempotent (st : State) :
  g_ui32ServoAngle (Menu "x" st) = g_StartPosition st /\
  g_ui32ServoAngle (Menu "x" (Menu "x" st)) = g_StartPosition st /\
  globals (Menu "x" (Menu "x" st)) = globals (Menu "x" st) /\
  g_ui32ServoAngle (Menu "e" st) = g_EndPosition st /\
  g_ui32ServoAngle (Menu "e" (Menu "e" st)) = g_EndPosition st /\
  globals (Menu "e" (Menu "e" st)) = globals (Menu "e" st).
Proof. repeat split. Qed.

(** ** C9: decrease below zero *)

(** C9.  When the angle is smaller than the increment, a decrease command
    leaves angle - increment + 2^32 in the angle and writes that value to
    both servo outputs; in particular from the start position when the
    increment exceeds it. *)
Theorem Menu_s_wraps (st : State) :
  in_range (g_ui32ServoAngle st) ->
  in_range (g_ui32AngleIncrement st) ->
  let v := g_ui32ServoAngle st - g_ui32AngleIncrement st + 2 ^ 32 in
  (g_ui32ServoAngle st < g_ui32AngleIncrement st ->
   g_ui32ServoAngle (Menu "s" st) = v /\
   hw (Menu "s" st) = hw st ++ servo_calls "Angle Decrease" v) /\
  (g_ui32ServoAngle st = g_StartPosition st ->
   g_StartPosition st < g_ui32AngleIncrement st ->
   g_ui32ServoAngle (Menu "s" st) = v /\
   hw (Menu "s" st) = hw st ++ servo_calls "Angle Decrease" v).
Proof.
  intros Ha Hi v.
  assert (K : g_ui32ServoAngle st < g_ui32AngleIncrement st ->
              g_ui32ServoAngle (Menu "s" st) = v /\
              hw (Menu "s" st) = hw st ++ servo_calls "Angle Decrease" v).
  { intros Hlt.
    assert (E : g_ui32ServoAngle (Menu "s" st) = v).
    { rewrite Menu_s_angle. now apply sub32_borrow. }
    split; [exact E |].
    rewrite <- E. apply Menu_hw_servo. simpl. tauto. }
  split; [exact K |].
  intros E Hlt. apply K. now rewrite E.
Qed.

Lemma Menu_s_wraps_witness :
  let st := set_ServoAngle 12 (set_StartPosition 12 example_state) in
  g_ui32ServoAngle (Menu "s" st) = 12 - 37 + 2 ^ 32 /\
  hw (Menu "s" st) = hw st ++ servo_calls "Angle Decrease" (12 - 37 + 2 ^ 32).
Proof.
  refine (proj2 (Menu_s_wraps
                   (set_ServoAngle 12 (set_StartPosition 12 example_state))
                   _ _) _ _).
  - closed_range.
  - closed_range.
  - reflexivity.
  - reflexivity.
Defined.

(** ** The heartbeat handler *)

(** The indicator write of the handler. *)
Definition led4_write (on : bool) : HwCall :=
  GPIOPinWrite LED_PORT2 [LED4_PIN] (if on then [LED4_PIN] else []).

(** One tick, by cases on the counter. *)
Lemma SysTick_below st :
  g_SysTickCount st < 5 ->
  SysTickIntHandler st = set_SysTickCount (wrap32 (g_SysTickCount st + 1)) st.
Proof.
  intros H. unfold SysTickIntHandler.
  destruct (Z.leb_spec 5 (g_SysTickCount st)); [lia | reflexivity].
Qed.

Lemma SysTick_reached st :
  5 <= g_SysTickCount st ->
  SysTickIntHandler st
  = set_SysTickCount 0
      (set_LED4On (negb (g_LED4On st))
         (call (led4_write (negb (g_LED4On st))) st)).
Proof.
  intros H. unfold SysTickIntHandler.
  destruct (Z.leb_spec 5 (g_SysTickCount st)); [| lia].
  unfold seq. now destruct (g_LED4On st).
Qed.

(** The globals that the heartbeat handler never assigns. *)
Definition heartbeat_frame (st st' : State) : Prop :=
  g_LEDON st' = g_LEDON st /\
  g_SysClockSpeed st' = g_SysClockSpeed st /\
  g_CharConsole st' = g_CharConsole st /\
  g_ConsoleFlag st' = g_ConsoleFlag st /\
  g_Quit st' = g_Quit st /\
  g_RadioCount st' = g_RadioCount st /\
  g_StartPosition st' = g_StartPosition st /\
  g_EndPosition st' = g_EndPosition st /\
  g_ui32AngleIncrement st' = g_ui32AngleIncrement st /\
  g_ui32ServoAngle st' = g_ui32ServoAngle st.

Lemma SysTick_frame st : heartbeat_frame st (SysTickIntHandler st).
Proof.
  destruct (Z.lt_ge_cases (g_SysTickCount st) 5) as [H | H].
  - rewrite (SysTick_below _ H). repeat split.
  - rewrite (SysTick_reached _ H). repeat split.
Qed.

Lemma SysTick_hw st :
  hw (SysTickIntHandler st)
  = hw st ++ (if 5 <=? g_SysTickCount st
              then [led4_write (negb (g_LED4On st))] else []).
Proof.
  destruct (Z.leb_spec 5 (g_SysTickCount st)) as [H | H].
  - now rewrite (SysTick_reached _ H).
  - rewrite (SysTick_below _ H). cbn. now rewrite app_nil_r.
Qed.

(** ** C10: the heartbeat and the dispatcher do not interfere *)

(** C10.  The tick handler leaves every global other than the tick counter
    and the indicator state as it was (among them the angle, the quit flag,
    the console character and the console flag) and makes at most one
    driver call, the write of indicator 4; the dispatcher, for every
    character, leaves the tick counter and the indicator state as they were
    and writes to no indicator. *)
Theorem heartbeat_dispatcher_frames (c : ascii) (st : State) :
  heartbeat_frame st (SysTickIntHandler st) /\
  (hw (SysTickIntHandler st) = hw st \/
   hw (SysTickIntHandler st) = hw st ++ [led4_write (negb (g_LED4On st))]) /\
  g_SysTickCount (Menu c st) = g_SysTickCount st /\
  g_LED4On (Menu c st) = g_LED4On st /\
  exists calls,
    hw (Menu c st) = hw st ++ calls /\
    forallb (fun e => negb (is_gpio_write e)) calls = true.
Proof.
  split; [apply SysTick_frame |]. split.
  - rewrite SysTick_hw. destruct (5 <=? g_SysTickCount st); [now right |].
    left. apply app_nil_r.
  - destruct (Menu_frame c st) as (_ & Hc & Hl & _).
    repeat split; try assumption.
    exists (Menu_calls c st). split; [apply Menu_hw | apply Menu_calls_no_gpio].
Qed.

(** ** C3: the period of the heartbeat *)

Lemma ticks_succ n st : ticks (N.succ n) st = SysTickIntHandler (ticks n st).
Proof. unfold ticks. apply N.iter_succ. Qed.

(** The number of indicator writes in a record of driver calls. *)
Definition led4_writes (l : list HwCall) : Z :=
  Z.of_nat (List.length (filter is_gpio_write l)).

Lemma led4_writes_app l1 l2 : led4_writes (l1 ++ l2) = led4_writes l1 + led4_writes l2.
Proof.
  unfold led4_writes. rewrite filter_app, length_app. lia.
Qed.

(** The state of the heartbeat after [n] ticks from a zero counter. *)
Lemma ticks_from_zero n st :
  g_SysTickCount st = 0 ->
  let st' := ticks n st in
  g_SysTickCount st' = Z.of_N n mod 6 /\
  g_LED4On st' = xorb (g_LED4On st) (Z.odd (Z.of_N n / 6)) /\
  exists calls,
    hw st' = hw st ++ calls /\ led4_writes calls = Z.of_N n / 6 /\
    List.length calls = List.length (filter is_gpio_write calls).
Proof.
  intros H0. cbv zeta.
  induction n as [| n IH] using N.peano_ind.
  - cbn. rewrite H0. repeat split. { now destruct (g_LED4On st). }
    exists []. now rewrite app_nil_r.
  - destruct IH as (Hc & Hl & calls & Hh & Hn & Hlen).
    rewrite ticks_succ, N2Z.inj_succ.
    set (k := Z.of_N n) in *. assert (0 <= k) by apply N2Z.is_nonneg.
    pose proof (Z.mod_pos_bound k 6 eq_refl) as Hm.
    pose proof (Z.div_mod k 6) as Hd.
    destruct (Z.eq_dec (k mod 6) 5) as [E5 | N5].
    + assert (Hq : Z.succ k / 6 = k / 6 + 1).
      { symmetry. apply (Z.div_unique _ _ _ 0); lia. }
      assert (Hr : Z.succ k mod 6 = 0).
      { symmetry. apply (Z.mod_unique _ _ (k / 6 + 1)); lia. }
      rewrite SysTick_reached by lia. cbn [g_SysTickCount g_LED4On hw
        set_SysTickCount set_LED4On call].
      rewrite Hq, Hr, Hl. split; [reflexivity |]. split.
      { rewrite Z.odd_add. cbn.
        destruct (g_LED4On st), (Z.odd (k / 6)); reflexivity. }
      exists (calls ++ [led4_write (negb (xorb (g_LED4On st) (Z.odd (k / 6))))]).
      rewrite Hh, <- app_assoc, led4_writes_app, Hn.
      repeat split. rewrite filter_app, !length_app, <- Hlen. reflexivity.
    + assert (Hq : Z.succ k / 6 = k / 6).
      { symmetry. apply (Z.div_unique _ _ _ (k mod 6 + 1)); lia. }
      assert (Hr : Z.succ k mod 6 = k mod 6 + 1).
      { symmetry. apply (Z.mod_unique _ _ (k / 6)); lia. }
      rewrite SysTick_below by lia. cbn [g_SysTickCount g_LED4On hw
        set_SysTickCount].
      rewrite Hq, Hr, Hl, Hc. split.
      { apply wrap32_small. unfold in_range, modulus. lia. }
      split; [reflexivity |]. now exists calls.
Qed.

(** C3 (as stated, refuted).  Starting from a zero counter, five ticks
    neither flip the indicator nor reset the counter, and ten ticks write
    the indicator once, not twice. *)
Lemma heartbeat_not_every_five :
  g_SysTickCount initial_state = 0 /\
  g_LED4On (ticks 5 initial_state) <> negb (g_LED4On initial_state) /\
  g_SysTickCount (ticks 5 initial_state) <> 0 /\
  led4_writes (hw (ticks 10 initial_state)) <> 2.
Proof. vm_compute. repeat split; discriminate. Qed.

(** C3 (amended).  A tick with the counter below 5 increments it and
    leaves the indicator alone; a tick with the counter at 5 (or above)
    flips the indicator, writes it, and sets the counter to zero without
    incrementing it.  So from a zero counter the indicator flips exactly
    once every 6 ticks: after [n] ticks the counter is n mod 6 and the
    indicator has been flipped and written n / 6 times. *)
Theorem heartbeat_period_six (n : N) (st : State) :
  g_SysTickCount st = 0 ->
  (forall s, 0 <= g_SysTickCount s < 5 ->
     g_SysTickCount (SysTickIntHandler s) = g_SysTickCount s + 1 /\
     g_LED4On (SysTickIntHandler s) = g_LED4On s /\
     hw (SysTickIntHandler s) = hw s) /\
  (forall s, 5 <= g_SysTickCount s ->
     g_SysTickCount (SysTickIntHandler s) = 0 /\
     g_LED4On (SysTickIntHandler s) = negb (g_LED4On s) /\
     hw (SysTickIntHandler s) = hw s ++ [led4_write (negb (g_LED4On s))]) /\
  g_SysTickCount (ticks n st) = Z.of_N n mod 6 /\
  g_LED4On (ticks n st) = xorb (g_LED4On st) (Z.odd (Z.of_N n / 6)) /\
  exists calls,
    hw (ticks n st) = hw st ++ calls /\
    led4_writes calls = Z.of_N n / 6 /\
    List.length calls = List.length (filter is_gpio_write calls).
Proof.
  intros H0. split; [| split].
  - intros s Hs. rewrite SysTick_below by lia. cbn. repeat split.
    apply wrap32_small. unfold in_range, modulus. lia.
  - intros s Hs. rewrite SysTick_reached by lia. repeat split.
  - exact (ticks_from_zero n st H0).
Qed.

Lemma heartbeat_period_six_witness :
  g_SysTickCount (ticks 6 initial_state) = 0 /\
  g_LED4On (ticks 6 initial_state) = true.
Proof.
  destruct (heartbeat_period_six 6 initial_state eq_refl)
    as (_ & _ & Hc & Hl & _).
  split; [exact Hc | exact Hl].
Defined.

(** ** C4: the console receive handler *)

Lemma Menu_ext c st1 st2 :
  g_ui32ServoAngle st1 = g_ui32ServoAngle st2 ->
  g_ui32AngleIncrement st1 = g_ui32AngleIncrement st2 ->
  g_StartPosition st1 = g_StartPosition st2 ->
  g_EndPosition st1 = g_EndPosition st2 ->
  g_Quit st1 = g_Quit st2 ->
  g_ui32ServoAngle (Menu c st1) = g_ui32ServoAngle (Menu c st2) /\
  g_Quit (Menu c st1) = g_Quit (Menu c st2) /\
  Menu_calls c st1 = Menu_calls c st2.
Proof.
  intros Ha Hi Hs He Hq. unfold Menu_calls, Menu, seq, skip.
  repeat match goal with
         | |- context [if ?b then _ else _] => destruct b
         end; cbn; rewrite ?Ha, ?Hi, ?Hs, ?He, ?Hq; repeat split.
Qed.

(** C4 (as stated, refuted).  After the handler has received ['w'] in the
    initial state, the console flag is not raised. *)
Lemma ConsoleIntHandler_flag_not_raised :
  g_ConsoleFlag (ConsoleIntHandler 0 119 initial_state) <> true.
Proof. vm_compute. discriminate. Qed.

(** C4 (amended).  After every run of the console receive handler the
    console character holds the byte just received, the byte has been
    echoed and dispatched through [Menu] inside the handler, and the
    console flag is false, so that the test of the flag in the main loop
    finds nothing to dispatch. *)
Theorem ConsoleIntHandler_dispatches_inline (status rx : Z) (st : State) :
  let c := char_of_int32 rx in
  let st' := ConsoleIntHandler status rx st in
  g_CharConsole st' = c /\
  g_ConsoleFlag st' = false /\
  g_ui32ServoAngle st' = g_ui32ServoAngle (Menu c st) /\
  g_Quit st' = g_Quit (Menu c st) /\
  hw st' = hw st ++ UARTIntClear status :: UARTCharPutNonBlocking c
                 :: Menu_calls c st /\
  loop_body st' = st'.
Proof.
  cbv zeta.
  set (c := char_of_int32 rx).
  set (st1 := call (UARTCharPutNonBlocking c)
                (set_CharConsole c (call (UARTIntClear status) st))).
  assert (E : ConsoleIntHandler status rx st = Menu c st1) by reflexivity.
  rewrite E.
  destruct (Menu_ext c st1 st) as (Ha & Hq & Hc); try reflexivity.
  destruct (Menu_frame c st1) as (_ & _ & _ & _ & Hch & _).
  repeat apply conj; try assumption.
  - reflexivity.
  - rewrite Menu_hw, Hc. subst st1. cbn. now rewrite <- !app_assoc.
Qed.

(** ** C5: the button gate *)

Section Buttons.

Variables LEFT_BUTTON RIGHT_BUTTON ALL_BUTTONS : Z.

Local Notation "'wait_for'" :=
  (WaitForButtonPress LEFT_BUTTON RIGHT_BUTTON ALL_BUTTONS).

(** The polls of the loop are compared after masking. *)
Definition pressed (mask p : Z) : Prop := Z.land p mask = mask.

Lemma wait_while_inv mask polls : forall actual n k,
  wait_while mask actual polls n = Some k ->
  (k = n /\ actual = mask) \/
  (exists j, k = (n + 1 + j)%nat /\ (j < List.length polls)%nat /\
             actual <> mask /\ pressed mask (nth j polls 0) /\
             forall i, (i < j)%nat -> ~ pressed mask (nth i polls 0)).
Proof.
  induction polls as [| p rest IH]; intros actual n k; cbn [wait_while];
    destruct (Z.eqb_spec actual mask) as [E | E]; intros H;
    try (injection H as <-; now left); try discriminate.
  right. apply IH in H. destruct H as [[-> Hp] | (j & -> & Hj & Hn & Hp & Hall)].
  - exists 0%nat. repeat split; cbn; try lia; try assumption.
  - exists (S j). repeat split; cbn [nth List.length]; try lia; try assumption.
    intros [| i] Hi; [exact Hn | apply Hall; lia].
Qed.

Lemma wait_while_returns mask polls : forall actual n j,
  actual <> mask -> (j < List.length polls)%nat ->
  pressed mask (nth j polls 0) ->
  (forall i, (i < j)%nat -> ~ pressed mask (nth i polls 0)) ->
  wait_while mask actual polls n = Some (n + 1 + j)%nat.
Proof.
  induction polls as [| p rest IH]; intros actual n j Ha Hj Hp Hall;
    cbn [List.length] in Hj; [lia |].
  cbn [wait_while]. destruct (Z.eqb_spec actual mask) as [E | _]; [contradiction |].
  destruct j as [| j].
  - cbn in Hp. unfold pressed in Hp. destruct rest; cbn [wait_while];
      rewrite Hp, Z.eqb_refl; f_equal; lia.
  - rewrite (IH (Z.land p mask) (S n) j).
    + f_equal. lia.
    + exact (Hall 0%nat ltac:(lia)).
    + lia.
    + exact Hp.
    + intros i Hi. apply (Hall (S i)). lia.
Qed.

Lemma wait_for_known d polls :
  d = LEFT_BUTTON \/ d = RIGHT_BUTTON \/ d = ALL_BUTTONS ->
  wait_for d polls
  = match polls with
    | [] => None
    | p0 :: rest => wait_while d p0 rest 0
    end.
Proof.
  intros H. unfold WaitForButtonPress. destruct polls as [| p0 rest]; [reflexivity |].
  destruct (Z.eqb_spec d LEFT_BUTTON) as [-> | N1]; [reflexivity |].
  destruct (Z.eqb_spec d RIGHT_BUTTON) as [-> | N2]; [reflexivity |].
  destruct (Z.eqb_spec d ALL_BUTTONS) as [-> | N3]; [reflexivity |].
  tauto.
Qed.

(** C5 (amended).  When [WaitForButtonPress] returns, after poll number
    [k] (counting from 0): if the requested mask is one of the three
    button constants, either [k] is the first poll and its value equals
    the mask exactly, or [k] is the first later poll whose value contains
    every bit of the mask, bits outside the mask being ignored; for any
    other requested mask it returns after the first poll. *)
Theorem WaitForButtonPress_release (d : Z) (polls : list Z) (k : nat) :
  WaitForButtonPress LEFT_BUTTON RIGHT_BUTTON ALL_BUTTONS d polls = Some k ->
  (k < List.length polls)%nat /\
  (d = LEFT_BUTTON \/ d = RIGHT_BUTTON \/ d = ALL_BUTTONS ->
     (k = 0%nat /\ nth 0 polls 0 = d) \/
     ((0 < k)%nat /\ nth 0 polls 0 <> d /\
      Z.land (nth k polls 0) d = d /\
      forall i, (0 < i < k)%nat -> Z.land (nth i polls 0) d <> d)) /\
  (d <> LEFT_BUTTON -> d <> RIGHT_BUTTON -> d <> ALL_BUTTONS -> k = 0%nat).
Proof.
  intros H. destruct polls as [| p0 rest]; [discriminate |].
  assert (K : d = LEFT_BUTTON \/ d = RIGHT_BUTTON \/ d = ALL_BUTTONS ->
              (k = 0%nat /\ p0 = d) \/
              (exists j, k = S j /\ (j < List.length rest)%nat /\ p0 <> d /\
                 pressed d (nth j rest 0) /\
                 forall i, (i < j)%nat -> ~ pressed d (nth i rest 0))).
  { intros Hd. rewrite (wait_for_known _ _ Hd) in H.
    apply wait_while_inv in H.
    destruct H as [[-> ->] | (j & -> & Hj & Hn & Hp & Hall)]; [now left |].
    right. exists j. repeat split; assumption. }
  repeat apply conj.
  - unfold WaitForButtonPress in H. cbn [List.length].
    destruct (Z.eqb_spec d LEFT_BUTTON) as [E | N1];
      [destruct (K (or_introl E)) as [[-> _] | (j & -> & ? & _)]; lia |].
    destruct (Z.eqb_spec d RIGHT_BUTTON) as [E | N2];
      [destruct (K (or_intror (or_introl E))) as [[-> _] | (j & -> & ? & _)]; lia |].
    destruct (Z.eqb_spec d ALL_BUTTONS) as [E | N3];
      [destruct (K (or_intror (or_intror E))) as [[-> _] | (j & -> & ? & _)]; lia |].
    injection H as <-. lia.
  - intros Hd. destruct (K Hd) as [[-> ->] | (j & -> & Hj & Hn & Hp & Hall)];
      [now left |].
    right. repeat split; try lia; try assumption.
    intros [| i] Hi; [lia |]. cbn [nth]. apply Hall. lia.
  - intros N1 N2 N3. unfold WaitForButtonPress in H.
    apply Z.eqb_neq in N1, N2, N3. rewrite N1, N2, N3 in H. now injection H.
Qed.

(** A poll that contains the requested button together with other bits
    ends the wait, whatever the three constants are. *)
Lemma WaitForButtonPress_superset (p : Z) :
  p <> LEFT_BUTTON -> Z.land p LEFT_BUTTON = LEFT_BUTTON ->
  wait_for LEFT_BUTTON [p; p] = Some 1%nat.
Proof.
  intros Hn Hp. rewrite wait_for_known by now left.
  apply (wait_while_returns LEFT_BUTTON [p] p 0 0); cbn; try lia; assumption.
Qed.

End Buttons.

(** C5 (as stated, refuted).  With the left button at bit 0 and the right
    button at bit 1, the wait for the left button returns at the second of
    the polls 0, 3, at which both buttons are down: the stable state is 3,
    not 1. *)
Lemma WaitForButtonPress_not_exact :
  WaitForButtonPress 1 2 3 1 [0; 3] = Some 1%nat /\ nth 1 [0; 3] 0 <> 1.
Proof. split; [reflexivity | discriminate]. Qed.

Lemma WaitForButtonPress_release_witness :
  (1 < List.length [0; 3])%nat /\ Z.land (nth 1 [0; 3] 0) 1 = 1.
Proof.
  destruct (WaitForButtonPress_release 1 2 3 1 [0; 3] 1 eq_refl)
    as (Hlen & Hk & _).
  split; [exact Hlen |].
  destruct (Hk (or_introl eq_refl)) as [[E _] | (_ & _ & Hp & _)];
    [discriminate E | exact Hp].
Defined.

(** ** C8: quitting *)







Lemma ConsoleIntHandler_inline status rx st :
  exists st1,
    ConsoleIntHandler status rx st = Menu (char_of_int32 rx) st1 /\
    g_StartPosition st1 = g_StartPosition st /\
    hw st1 = hw st ++ [UARTIntClear status;
                       UARTCharPutNonBlocking (char_of_int32 rx)] /\
    g_Quit st1 = g_Quit st.
Proof.
  eexists. split; [reflexivity |]. cbn. rewrite <- app_assoc. now repeat split.
Qed.












Definition shutdown_calls (start : Z) : list HwCall :=
  servo_calls "Start Position" start ++
  [ UARTprintf shutdown_message [];
    GPIOPinWrite LED_PORT1 [LED1_PIN; LED2_PIN] [];
    GPIOPinWrite LED_PORT2 [LED3_PIN; LED4_PIN] [];
    IntMasterDisable ].

Lemma shutdown_spec st :
  g_ui32ServoAngle (shutdown st) = g_StartPosition st /\
  g_StartPosition (shutdown st) = g_StartPosition st /\
  g_Quit (shutdown st) = g_Quit st /\
  hw (shutdown st) = hw st ++ shutdown_calls (g_StartPosition st).
Proof. repeat split. cbn. now rewrite <- !app_assoc. Qed.



(** ** Rounding to nearest

    What [binary_round_aux] and [binary_round] compute on a positive
    mantissa in the normal range, in terms of integer division. *)

Lemma digits2_pos_bounds (p : positive) :
  2 ^ (Zpos (digits2_pos p) - 1) <= Zpos p < 2 ^ Zpos (digits2_pos p).
Proof.
  induction p as [p IH | p IH |]; cbn [digits2_pos];
    rewrite ?Pos2Z.inj_succ, <- ?Z.add_1_r.
  - replace (Z.pos (digits2_pos p) + 1 - 1) with (Z.succ (Z.pos (digits2_pos p) - 1)) by lia.
    rewrite Z.pow_succ_r, Z.pow_add_r by lia. lia.
  - replace (Z.pos (digits2_pos p) + 1 - 1) with (Z.succ (Z.pos (digits2_pos p) - 1)) by lia.
    rewrite Z.pow_succ_r, Z.pow_add_r by lia. lia.
  - cbn. lia.
Qed.

Lemma digits2_pos_unique (p : positive) (k : Z) :
  2 ^ (k - 1) <= Zpos p < 2 ^ k -> Zpos (digits2_pos p) = k.
Proof.
  intros [Hlo Hhi]. pose proof (digits2_pos_bounds p) as [Dlo Dhi].
  set (d := Zpos (digits2_pos p)) in *.
  assert (0 < d) by (subst d; lia).
  destruct (Z.lt_trichotomy d k) as [Hlt | [E | Hgt]]; [| exact E |].
  - assert (2 ^ d <= 2 ^ (k - 1)) by (apply Z.pow_le_mono_r; lia). lia.
  - destruct (Z.le_gt_cases 0 k) as [Hk | Hk].
    + assert (2 ^ k <= 2 ^ (d - 1)) by (apply Z.pow_le_mono_r; lia). lia.
    + rewrite (Z.pow_neg_r 2 k) in Hhi by lia. lia.
Qed.

(** [shr_1] halves the mantissa; the two extra bits are both clear only if
    nothing has been shifted out. *)
Definition shr_inv (n k : Z) (mrs : shr_record) : Prop :=
  0 <= shr_m mrs /\ shr_m mrs = n / 2 ^ k /\
  (n mod 2 ^ k = 0 -> shr_r mrs = false /\ shr_s mrs = false).

Lemma shr_1_inv n k mrs :
  0 <= n -> 0 <= k -> shr_inv n k mrs -> shr_inv n (k + 1) (shr_1 mrs).
Proof.
  intros Hn Hk (Hm0 & Hm & Hex).
  assert (P2 : 0 < 2 ^ k) by (apply Z.pow_pos_nonneg; lia).
  assert (Hdiv : n / 2 ^ (k + 1) = shr_m mrs / 2).
  { rewrite Z.pow_add_r, Z.pow_1_r, <- Z.div_div, Hm by lia. reflexivity. }
  assert (Hmod : n mod 2 ^ (k + 1) = 0 ->
                 n mod 2 ^ k = 0 /\ shr_m mrs mod 2 = 0).
  { intros H0. rewrite Z.pow_add_r, Z.pow_1_r, Z.rem_mul_r in H0 by lia.
    fold (n / 2 ^ k) in H0. rewrite <- Hm in H0.
    pose proof (Z.mod_pos_bound n (2 ^ k) P2).
    pose proof (Z.mod_pos_bound (shr_m mrs) 2 eq_refl). nia. }
  destruct mrs as [m r s]. cbn [shr_m shr_r shr_s] in *.
  unfold shr_inv. rewrite Hdiv.
  destruct m as [| [p | p |] | p]; cbn [shr_1 shr_m shr_r shr_s]; try lia;
    (split; [lia | split]).
  - reflexivity.
  - intros H0. destruct (Hmod H0) as (Hk0 & _).
    destruct (Hex Hk0) as [-> ->]. now split.
  - rewrite Pos2Z.inj_xI. apply (Z.div_unique _ _ _ 1); lia.
  - intros H0. destruct (Hmod H0) as (_ & Habs). rewrite Pos2Z.inj_xI in Habs.
    rewrite Z.add_comm, Z.mul_comm, Z.mod_add in Habs by lia. discriminate.
  - rewrite Pos2Z.inj_xO. apply (Z.div_unique _ _ _ 0); lia.
  - intros H0. destruct (Hmod H0) as (Hk0 & _).
    destruct (Hex Hk0) as [-> ->]. now split.
  - reflexivity.
  - intros H0. destruct (Hmod H0) as (_ & Habs). discriminate.
Qed.

Lemma iter_pos_shr_inv n (p : positive) : forall k mrs,
  0 <= n -> 0 <= k -> shr_inv n k mrs ->
  shr_inv n (k + Zpos p) (iter_pos shr_1 p mrs).
Proof.
  induction p as [p IH | p IH |]; intros k mrs Hn Hk H; cbn [iter_pos].
  - replace (k + Z.pos p~1) with (((k + 1) + Z.pos p) + Z.pos p) by lia.
    apply IH; try lia. apply IH; try lia. now apply shr_1_inv.
  - replace (k + Z.pos p~0) with ((k + Z.pos p) + Z.pos p) by lia.
    apply IH; try lia. now apply IH.
  - now apply shr_1_inv.
Qed.

Section Round.

Variables prec emax : Z.
Hypothesis prec_pos : 0 < prec.

(** The unit of the last kept bit of the mantissa [n], as an exponent. *)
Definition ulp_shift (n : positive) : Z := Z.max 0 (Zpos (digits2_pos n) - prec).

(** [rounded n r]: [r] is [n] when [n] fits, else one of the two multiples
    of the unit around [n]. *)
Definition rounded (n : positive) (r : Z) : Prop :=
  let u := 2 ^ ulp_shift n in
  Zpos n / u * u <= r <= Zpos n / u * u + u /\
  r mod u = 0 /\
  (Zpos n mod u = 0 -> r = Zpos n).

(** The two stages of [binary_round_aux], over the integer operations of
    the standard library. *)
Definition finish (m e : Z) : spec_float :=
  let '(mrs, e') := shr_fexp prec emax m e loc_Exact in
  match shr_m mrs with
  | Z0 => S754_zero false
  | Zpos p => if e' <=? emax - prec then S754_finite false p e'
              else S754_infinity false
  | Zneg _ => S754_nan
  end.

Lemma binary_round_aux_stages mx ex lx :
  binary_round_aux prec emax false mx ex lx
  = let st := shr_fexp prec emax mx ex lx in
    finish (round_nearest_even (shr_m (fst st)) (loc_of_shr_record (fst st)))
      (snd st).
Proof.
  unfold binary_round_aux, finish. cbv zeta.
  destruct (shr_fexp prec emax mx ex lx) as [mrs e]. reflexivity.
Qed.

Lemma shr_fexp_normal m e l :
  3 - emax - prec <= Zdigits2 m + e - prec ->
  shr_fexp prec emax m e l
  = shr (shr_record_of_loc m l) e (Zdigits2 m - prec).
Proof.
  intros H.
  change (shr_fexp prec emax m e l)
    with (shr (shr_record_of_loc m l) e
            (Z.max (Zdigits2 m + e - prec) (3 - emax - prec) - e)).
  rewrite Z.max_l by exact H. f_equal. lia.
Qed.

Lemma shr_nonpos mrs e s : s <= 0 -> shr mrs e s = (mrs, e).
Proof. destruct s; [reflexivity | lia | reflexivity]. Qed.

Lemma shr_pos mrs e s n :
  0 < s -> 0 <= n -> shr_inv n 0 mrs ->
  exists mrs', shr mrs e s = (mrs', e + s) /\ shr_inv n s mrs'.
Proof.
  intros Hs Hn Hinv. destruct s as [| p | p]; try lia.
  exists (iter_pos shr_1 p mrs). split; [reflexivity |].
  exact (iter_pos_shr_inv n p 0 mrs Hn (Z.le_refl 0) Hinv).
Qed.

Lemma shr_inv_start n : 0 <= n -> shr_inv n 0 (Build_shr_record n false false).
Proof.
  intros Hn. unfold shr_inv. cbn. rewrite Z.div_1_r. repeat split; assumption.
Qed.

Lemma round_nearest_even_bounds mrs :
  let m2 := round_nearest_even (shr_m mrs) (loc_of_shr_record mrs) in
  shr_m mrs <= m2 <= shr_m mrs + 1 /\
  (shr_r mrs = false -> shr_s mrs = false -> m2 = shr_m mrs).
Proof.
  destruct mrs as [m [] []]; cbn; destruct (Z.even m); split; try lia;
    intros; try discriminate; reflexivity.
Qed.

Lemma Zdigits2_unique m k :
  0 < k -> 2 ^ (k - 1) <= m < 2 ^ k -> Zdigits2 m = k.
Proof.
  intros Hk H. assert (0 < 2 ^ (k - 1)) by (apply Z.pow_pos_nonneg; lia).
  destruct m as [| p | p]; try lia. cbn. now apply digits2_pos_unique.
Qed.

(** The second normalisation of [binary_round_aux]: a mantissa of [prec]
    bits is kept; 2^prec is halved. *)
Lemma finish_normal m2 e :
  2 ^ (prec - 1) <= m2 <= 2 ^ prec ->
  3 - emax - prec <= e -> e + 1 <= emax - prec ->
  exists m' e',
    finish m2 e = S754_finite false m' e' /\
    e <= e' /\ Zpos m' * 2 ^ (e' - e) = m2 /\
    2 ^ (prec - 1) <= Zpos m' < 2 ^ prec.
Proof.
  intros Hm He Hmax.
  assert (P1 : 0 < 2 ^ (prec - 1)) by (apply Z.pow_pos_nonneg; lia).
  assert (P2 : 2 ^ prec = 2 * 2 ^ (prec - 1)).
  { rewrite <- Z.pow_succ_r by lia. f_equal. lia. }
  unfold finish.
  destruct (Z.eq_dec m2 (2 ^ prec)) as [E | N].
  - assert (D : Zdigits2 m2 = prec + 1).
    { apply Zdigits2_unique; [lia |]. replace (prec + 1 - 1) with prec by lia.
      rewrite Z.pow_add_r, Z.pow_1_r by lia. lia. }
    rewrite shr_fexp_normal by lia. rewrite D.
    replace (prec + 1 - prec) with 1 by lia. cbn [shr_record_of_loc].
    destruct (shr_pos (Build_shr_record m2 false false) e 1 m2)
      as (mrs & -> & (Hm0 & Hmv & _)); try lia.
    { apply shr_inv_start. lia. }
    rewrite Z.pow_1_r in Hmv.
    assert (Hv : shr_m mrs = 2 ^ (prec - 1)).
    { rewrite Hmv, E, P2. symmetry. apply Z.div_unique_exact; lia. }
    rewrite Hv. destruct (2 ^ (prec - 1)) as [| q | q] eqn:Q; try lia.
    destruct (Z.leb_spec (e + 1) (emax - prec)); [| lia].
    exists q, (e + 1). repeat split; try lia.
    replace (e + 1 - e) with 1 by lia. rewrite Z.pow_1_r. lia.
  - assert (D : Zdigits2 m2 = prec) by (apply Zdigits2_unique; lia).
    rewrite shr_fexp_normal by lia. rewrite D.
    rewrite shr_nonpos by lia. cbn [shr_m shr_record_of_loc].
    destruct m2 as [| q | q]; try lia.
    destruct (Z.leb_spec e (emax - prec)); [| lia].
    exists q, e. repeat split; try lia.
    rewrite Z.sub_diag. cbn. lia.
Qed.

(** Rounding a positive mantissa with exponent, in the normal range. *)
Lemma binary_round_aux_pos (n : positive) (ex : Z) :
  3 - emax - prec <= Zpos (digits2_pos n) + ex - prec ->
  Zpos (digits2_pos n) + ex < emax ->
  ex <= emax - prec ->
  exists r m' e',
    rounded n r /\
    binary_round_aux prec emax false (Zpos n) ex loc_Exact
    = S754_finite false m' e' /\
    ex <= e' /\ Zpos m' * 2 ^ (e' - ex) = r /\ Zpos m' < 2 ^ prec /\
    (prec <= Zpos (digits2_pos n) -> 2 ^ (prec - 1) <= Zpos m').
Proof.
  intros Hmin Hmax Hex.
  pose proof (digits2_pos_bounds n) as [Dlo Dhi].
  unfold rounded, ulp_shift.
  rewrite binary_round_aux_stages. cbv zeta.
  rewrite shr_fexp_normal by exact Hmin. cbn [Zdigits2 shr_record_of_loc].
  set (d := Zpos (digits2_pos n)) in *.
  destruct (Z.le_gt_cases d prec) as [Hd | Hd].
  - (* the mantissa fits *)
    rewrite shr_nonpos by lia.
    cbn [fst snd shr_m loc_of_shr_record round_nearest_even].
    unfold finish. rewrite shr_fexp_normal by exact Hmin.
    cbn [Zdigits2 shr_record_of_loc]. fold d.
    rewrite shr_nonpos by lia. cbn [shr_m].
    destruct (Z.leb_spec ex (emax - prec)); [| lia].
    exists (Zpos n), n, ex. rewrite Z.max_l by lia. cbn [Z.pow].
    rewrite Z.div_1_r, Z.mod_1_r, Z.sub_diag, Z.pow_0_r.
    assert (2 ^ d <= 2 ^ prec) by (apply Z.pow_le_mono_r; lia).
    repeat apply conj; try lia; try reflexivity.
    intros Hp. replace prec with d by lia. exact Dlo.
  - (* the mantissa is cut *)
    rewrite Z.max_r by lia.
    set (s := d - prec) in *.
    assert (Ps : 0 < 2 ^ s) by (apply Z.pow_pos_nonneg; lia).
    destruct (shr_pos (Build_shr_record (Zpos n) false false) ex s (Zpos n))
      as (mrs & -> & (Hm0 & Hmv & Hexact)); try lia.
    { apply shr_inv_start. lia. }
    cbn [fst snd].
    pose proof (round_nearest_even_bounds mrs) as [Hb Hsame]. cbv zeta in Hb, Hsame.
    set (m2 := round_nearest_even (shr_m mrs) (loc_of_shr_record mrs)) in *.
    assert (Hm1 : 2 ^ (prec - 1) <= shr_m mrs < 2 ^ prec).
    { rewrite Hmv. split.
      - apply Z.div_le_lower_bound; [lia |].
        rewrite <- Z.pow_add_r by lia. now replace (s + (prec - 1)) with (d - 1) by lia.
      - apply Z.div_lt_upper_bound; [lia |].
        rewrite <- Z.pow_add_r by lia. now replace (s + prec) with d by lia. }
    destruct (finish_normal m2 (ex + s)) as (m' & e' & -> & He' & Hv & Hlt);
      try lia.
    exists (m2 * 2 ^ s), m', e'. repeat apply conj; try lia; try reflexivity.
    + rewrite <- Hmv. nia.
    + rewrite <- Hmv. nia.
    + apply Z.mod_mul. lia.
    + intros H0. destruct (Hexact H0) as [Hr Hs]. rewrite (Hsame Hr Hs), Hmv.
      pose proof (Z.div_mod (Zpos n) (2 ^ s)). lia.
    + replace (e' - ex) with ((e' - (ex + s)) + s) by lia.
      rewrite Z.pow_add_r by lia. rewrite Z.mul_assoc, Hv. reflexivity.
Qed.

End Round.

(** ** Values of positive finite numbers *)

(** Two numbers [m * 2^e] and [n * 2^ex] compared over a common base. *)
Lemma cross_base m e n ex b b' :
  b <= e -> b <= ex -> b' <= e -> b' <= ex ->
  m * 2 ^ (e - b) = n * 2 ^ (ex - b) -> m * 2 ^ (e - b') = n * 2 ^ (ex - b').
Proof.
  intros H1 H2 H3 H4 H.
  set (c := Z.min b b').
  assert (Hc : m * 2 ^ (e - c) = n * 2 ^ (ex - c)).
  { replace (e - c) with ((e - b) + (b - c)) by lia.
    replace (ex - c) with ((ex - b) + (b - c)) by lia.
    rewrite !Z.pow_add_r, !Z.mul_assoc, H by lia. reflexivity. }
  replace (e - c) with ((e - b') + (b' - c)) in Hc by lia.
  replace (ex - c) with ((ex - b') + (b' - c)) in Hc by lia.
  rewrite !Z.pow_add_r, !Z.mul_assoc in Hc by lia.
  apply Z.mul_cancel_r in Hc; [exact Hc |].
  apply Z.pow_nonzero; lia.
Qed.

(** [has_value f n ex]: [f] is the positive finite number [n * 2^ex]. *)
Definition has_value (f : spec_float) (n ex : Z) : Prop :=
  exists m e,
    f = S754_finite false m e /\
    Zpos m * 2 ^ (e - Z.min e ex) = n * 2 ^ (ex - Z.min e ex).

(** [normal prec f]: the mantissa of [f] has exactly [prec] bits. *)
Definition normal (prec : Z) (f : spec_float) : Prop :=
  exists m e, f = S754_finite false m e /\ 2 ^ (prec - 1) <= Zpos m < 2 ^ prec.

Lemma has_value_base m e n ex b :
  b <= e -> b <= ex ->
  Zpos m * 2 ^ (e - b) = n * 2 ^ (ex - b) ->
  has_value (S754_finite false m e) n ex.
Proof.
  intros H1 H2 H. exists m, e. split; [reflexivity |].
  apply (cross_base _ _ _ _ b); lia || assumption.
Qed.

Lemma has_value_at f n ex :
  has_value f n ex ->
  exists m e,
    f = S754_finite false m e /\
    forall b, b <= e -> b <= ex -> Zpos m * 2 ^ (e - b) = n * 2 ^ (ex - b).
Proof.
  intros (m & e & -> & H). exists m, e. split; [reflexivity |].
  intros b H1 H2. apply (cross_base _ _ _ _ (Z.min e ex)); lia || assumption.
Qed.

Lemma has_value_trans f n ex n' ex' b :
  has_value f n ex -> b <= ex -> b <= ex' ->
  n * 2 ^ (ex - b) = n' * 2 ^ (ex' - b) ->
  has_value f n' ex'.
Proof.
  intros H H1 H2 E. apply has_value_at in H. destruct H as (m & e & -> & H).
  set (c := Z.min b e).
  apply (has_value_base _ _ _ _ c); try lia.
  rewrite (H c) by lia.
  apply (cross_base _ _ _ _ b); lia || assumption.
Qed.

(** The integer part of a number is its value cut at bit 0. *)
Lemma trunc_has_value f n ex :
  has_value f n ex -> ex <= 0 -> trunc f = Some (n / 2 ^ (- ex)).
Proof.
  intros H Hex. apply has_value_at in H. destruct H as (m & e & -> & H).
  cbn [trunc cond_Zopp]. f_equal.
  assert (P : 0 < 2 ^ (- ex)) by (apply Z.pow_pos_nonneg; lia).
  destruct (Z.leb_spec 0 e) as [He | He].
  - specialize (H ex ltac:(lia) ltac:(lia)).
    rewrite Z.sub_diag, Z.mul_1_r in H. rewrite <- H.
    replace (e - ex) with (e + - ex) by lia.
    rewrite Z.pow_add_r, Z.mul_assoc, Z.div_mul by lia. reflexivity.
  - set (b := Z.min e ex). specialize (H b ltac:(lia) ltac:(lia)).
    assert (Pb : 0 < 2 ^ (ex - b)) by (apply Z.pow_pos_nonneg; lia).
    assert (Pe : 0 < 2 ^ (e - b)) by (apply Z.pow_pos_nonneg; lia).
    rewrite <- (Z.div_mul_cancel_r (Zpos m) (2 ^ (- e)) (2 ^ (e - b))) by lia.
    rewrite <- (Z.div_mul_cancel_r n (2 ^ (- ex)) (2 ^ (ex - b))) by lia.
    rewrite H, <- !Z.pow_add_r by lia.
    do 2 f_equal. lia.
Qed.

Section Normalise.

Variables prec emax : Z.
Hypothesis prec_pos : 0 < prec.

Lemma Zpos_iter_xO (n k : positive) :
  Zpos (Pos.iter xO n k) = Zpos n * 2 ^ Zpos k.
Proof.
  rewrite (Pos.iter_swap_gen _ _ Zpos xO (Z.mul 2)) by reflexivity.
  change (Pos.iter (Z.mul 2) (Zpos n) k) with (Z.shiftl (Zpos n) (Zpos k)).
  apply Z.shiftl_mul_pow2. lia.
Qed.

Lemma digits2_pos_shift (n : positive) (k : Z) (m : positive) :
  0 <= k -> Zpos m = Zpos n * 2 ^ k ->
  Zpos (digits2_pos m) = Zpos (digits2_pos n) + k.
Proof.
  intros Hk E. pose proof (digits2_pos_bounds n) as [Lo Hi].
  assert (P : 0 < 2 ^ k) by (apply Z.pow_pos_nonneg; lia).
  apply digits2_pos_unique. rewrite E.
  replace (Zpos (digits2_pos n) + k - 1) with ((Zpos (digits2_pos n) - 1) + k) by lia.
  rewrite !Z.pow_add_r by lia. nia.
Qed.

(** [binary_round] first aligns a short mantissa, then rounds. *)
Lemma binary_round_aligned (n : positive) (ex : Z) :
  3 - emax - prec <= Zpos (digits2_pos n) + ex - prec ->
  exists mz ez,
    binary_round prec emax false n ex
    = binary_round_aux prec emax false (Zpos mz) ez loc_Exact /\
    ez = Z.min ex (Zpos (digits2_pos n) + ex - prec) /\
    Zpos mz = Zpos n * 2 ^ (ex - ez).
Proof.
  intros Hmin. set (d := Zpos (digits2_pos n)) in *.
  change (binary_round prec emax false n ex)
    with (let '(mz, ez) :=
            match Z.max (d + ex - prec) (3 - emax - prec) - ex with
            | Zneg k => (Pos.iter xO n k, Z.max (d + ex - prec) (3 - emax - prec))
            | _ => (n, ex)
            end in
          binary_round_aux prec emax false (Zpos mz) ez loc_Exact).
  rewrite Z.max_l by exact Hmin.
  destruct (d + ex - prec - ex) as [| k | k] eqn:E.
  - exists n, ex. repeat split; try lia.
    replace (ex - ex) with 0 by lia. cbn. lia.
  - exists n, ex. repeat split; try lia.
    replace (ex - ex) with 0 by lia. cbn. lia.
  - exists (Pos.iter xO n k), (d + ex - prec). repeat split; try lia.
    rewrite Zpos_iter_xO. do 2 f_equal. lia.
Qed.

(** Conversion of a positive mantissa with exponent, in the normal range:
    the result has a full mantissa and its value is the rounded mantissa
    times 2^ex. *)
Lemma binary_round_pos (n : positive) (ex : Z) :
  3 - emax - prec <= Zpos (digits2_pos n) + ex - prec ->
  Zpos (digits2_pos n) + ex < emax ->
  exists r,
    rounded prec n r /\
    has_value (binary_round prec emax false n ex) r ex /\
    normal prec (binary_round prec emax false n ex).
Proof.
  intros Hmin Hmax. set (d := Zpos (digits2_pos n)) in *.
  destruct (binary_round_aligned n ex Hmin) as (mz & ez & -> & Hez & Hmz).
  fold d in Hez.
  assert (Dz : Zpos (digits2_pos mz) = d + (ex - ez)).
  { apply digits2_pos_shift; [lia | exact Hmz]. }
  destruct (binary_round_aux_pos prec emax prec_pos mz ez)
    as (r & m' & e' & (Hb & Hmod & Hexact) & -> & He' & Hv & Hlt & Hfull);
    try lia.
  unfold ulp_shift in Hb, Hmod, Hexact. rewrite Dz in Hb, Hmod, Hexact, Hfull.
  assert (Hn : normal prec (S754_finite false m' e')).
  { exists m', e'. split; [reflexivity |]. split; [apply Hfull; lia | exact Hlt]. }
  destruct (Z.le_gt_cases prec d) as [Hd | Hd].
  - (* no alignment: the mantissa is rounded as it is *)
    replace (ex - ez) with 0 in * by lia.
    rewrite Z.pow_0_r, Z.mul_1_r in Hmz. injection Hmz as ->.
    rewrite Z.add_0_r in *.
    exists r. split; [| split]; [| | exact Hn].
    + unfold rounded, ulp_shift. fold d. exact (conj Hb (conj Hmod Hexact)).
    + apply (has_value_base _ _ _ _ ez); try lia.
      rewrite Hv. replace (ex - ez) with 0 by lia. cbn. lia.
  - (* alignment: the mantissa fits and is kept *)
    rewrite Z.max_l in Hexact by lia. rewrite Z.pow_0_r, Z.mod_1_r in Hexact.
    specialize (Hexact eq_refl). subst r.
    exists (Zpos n). split; [| split]; [| | exact Hn].
    + unfold rounded, ulp_shift. fold d. rewrite Z.max_l by lia.
      rewrite Z.pow_0_r, Z.div_1_r, Z.mod_1_r. repeat split; lia.
    + apply (has_value_base _ _ _ _ ez); lia.
Qed.

End Normalise.

Section Idem.

Variable prec : Z.
Hypothesis prec_pos : 0 < prec.

(** A rounded mantissa is representable: rounding it again changes
    nothing. *)
Lemma rounded_idem (n : positive) (R : Z) (p : positive) (R' : Z) :
  rounded prec n R -> Zpos p = R -> rounded prec p R' -> R' = R.
Proof.
  unfold rounded, ulp_shift. intros (Hb & Hmod & Hexact) Hp (_ & _ & Hfix).
  rewrite <- Hp. apply Hfix. rewrite Hp. clear Hfix R'.
  pose proof (digits2_pos_bounds n) as [Lo Hi].
  set (d := Zpos (digits2_pos n)) in *.
  destruct (Z.le_gt_cases d prec) as [Hd | Hd].
  - rewrite Z.max_l in Hexact by lia. rewrite Z.pow_0_r, Z.mod_1_r in Hexact.
    specialize (Hexact eq_refl). assert (p = n) by congruence. subst p.
    fold d. rewrite Z.max_l by lia. now rewrite Z.pow_0_r, Z.mod_1_r.
  - rewrite Z.max_r in Hb, Hmod by lia. clear Hexact.
    set (s := d - prec) in *.
    assert (Ps : 0 < 2 ^ s) by (apply Z.pow_pos_nonneg; lia).
    assert (Hd2 : 2 ^ d = 2 ^ prec * 2 ^ s).
    { rewrite <- Z.pow_add_r by lia. f_equal. lia. }
    assert (Hd1 : 2 ^ (d - 1) = 2 ^ (prec - 1) * 2 ^ s).
    { rewrite <- Z.pow_add_r by lia. f_equal. lia. }
    assert (Hp2 : 2 ^ prec = 2 * 2 ^ (prec - 1)).
    { rewrite <- Z.pow_succ_r by lia. f_equal. lia. }
    assert (Ht : 2 ^ (prec - 1) <= Zpos n / 2 ^ s < 2 ^ prec).
    { split; [apply Z.div_le_lower_bound | apply Z.div_lt_upper_bound]; lia. }
    apply Z.mod_divide in Hmod; [| lia]. destruct Hmod as [k Hk].
    assert (Hk' : Zpos n / 2 ^ s <= k <= Zpos n / 2 ^ s + 1) by nia.
    destruct (Z.eq_dec k (2 ^ prec)) as [E | N].
    + assert (D : Zpos (digits2_pos p) = d + 1).
      { apply digits2_pos_unique. rewrite Hp, Hk, E.
        replace (d + 1 - 1) with d by lia.
        rewrite Z.pow_add_r, Z.pow_1_r by lia. lia. }
      rewrite D, Z.max_r by lia. rewrite Hk, E.
      replace (d + 1 - prec) with (s + 1) by lia.
      replace prec with ((prec - 1) + 1) at 1 by lia.
      rewrite <- Z.pow_add_r, <- Z.add_assoc, (Z.add_comm 1 s), Z.pow_add_r by lia.
      apply Z.mod_mul. apply Z.pow_nonzero; lia.
    + assert (D : Zpos (digits2_pos p) = d).
      { apply digits2_pos_unique. rewrite Hp. nia. }
      rewrite D, Z.max_r by lia. fold s. rewrite Hk. apply Z.mod_mul. lia.
Qed.

End Idem.

(** ** The conversions of the program *)

Lemma digits2_pos_le (p : positive) (k : Z) :
  Zpos p < 2 ^ k -> Zpos (digits2_pos p) <= k.
Proof.
  intros H. pose proof (digits2_pos_bounds p) as [Lo _].
  destruct (Z.le_gt_cases (Zpos (digits2_pos p)) k) as [Hle | Hgt]; [exact Hle |].
  assert (2 ^ k <= 2 ^ (Zpos (digits2_pos p) - 1)).
  { destruct (Z.le_gt_cases 0 k).
    - apply Z.pow_le_mono_r; lia.
    - rewrite (Z.pow_neg_r 2 k) by lia. apply Z.pow_nonneg. lia. }
  lia.
Qed.

(** A positive [uint32_t] converts to a normal [float] whose value is the
    integer rounded to 24 bits. *)
Lemma float_of_uint32_pos (q : positive) :
  Zpos q < 2 ^ 32 ->
  exists R,
    rounded 24 q R /\
    has_value (float_of_uint32 (Zpos q)) R 0 /\
    normal 24 (float_of_uint32 (Zpos q)).
Proof.
  intros Hq. pose proof (digits2_pos_le q 32 Hq).
  change (float_of_uint32 (Zpos q)) with (binary_round 24 128 false q 0).
  apply binary_round_pos; lia.
Qed.

(** The promotion to [double] keeps the value. *)
Lemma double_of_float_value f P :
  normal 24 f -> has_value f P 0 -> 0 < P < 2 ^ 33 ->
  normal 53 (double_of_float f) /\ has_value (double_of_float f) P 0.
Proof.
  intros (m & e & -> & Hm) Hv HP.
  apply has_value_at in Hv. destruct Hv as (m' & e' & E & Hv).
  injection E as <- <-.
  assert (D : Zpos (digits2_pos m) = 24) by (apply digits2_pos_unique; exact Hm).
  assert (He : -24 < e < 10).
  { destruct (Z.le_gt_cases 0 e) as [H0 | H0].
    - specialize (Hv 0 H0 (Z.le_refl 0)). rewrite !Z.sub_0_r in Hv.
      split; [lia |].
      destruct (Z.lt_ge_cases e 10) as [Hlt | Hge]; [exact Hlt |].
      assert (2 ^ 10 <= 2 ^ e) by (apply Z.pow_le_mono_r; lia).
      change (2 ^ (24 - 1)) with 8388608 in Hm. change (2 ^ 33) with 8589934592 in HP.
      change (2 ^ 10) with 1024 in *. nia.
    - specialize (Hv e (Z.le_refl e) ltac:(lia)).
      rewrite Z.sub_diag, Z.pow_0_r, Z.mul_1_r in Hv. split; [| lia].
      destruct (Z.lt_ge_cases (-24) e) as [Hlt | Hge]; [exact Hlt |].
      assert (2 ^ 24 <= 2 ^ (0 - e)) by (apply Z.pow_le_mono_r; lia).
      nia. }
  change (double_of_float (S754_finite false m e))
    with (binary_round 53 1024 false m e).
  destruct (binary_round_pos 53 1024 eq_refl m e) as (r & Hr & Hval & Hn);
    try lia.
  split; [exact Hn |].
  destruct Hr as (_ & _ & Hexact). unfold ulp_shift in Hexact.
  rewrite D in Hexact. change (2 ^ Z.max 0 (24 - 53)) with 1 in Hexact.
  rewrite Z.mod_1_r in Hexact. specialize (Hexact eq_refl). subst r.
  apply (has_value_trans _ _ _ _ _ (Z.min e 0) Hval); try lia.
  apply Hv; lia.
Qed.

(** The arithmetic behind the product with 0.025: a multiple of 2^j within
    2^j of P * 7205759403792794 has the integer part of P / 40 above bit
    58. *)
Lemma scaled_floor (P j r : Z) :
  0 <= P < 2 ^ 32 -> 0 <= j <= 32 ->
  (P * 7205759403792794) / 2 ^ j * 2 ^ j <= r
    <= (P * 7205759403792794) / 2 ^ j * 2 ^ j + 2 ^ j ->
  r / 2 ^ 58 = P / 40.
Proof.
  intros HP Hj Hr.
  set (N := P * 7205759403792794) in *.
  assert (Pj : 0 < 2 ^ j) by (apply Z.pow_pos_nonneg; lia).
  assert (Hj32 : 2 ^ j <= 2 ^ 32) by (apply Z.pow_le_mono_r; lia).
  assert (E58 : 2 ^ 58 = 2 ^ j * 2 ^ (58 - j)).
  { rewrite <- Z.pow_add_r by lia. f_equal. lia. }
  pose proof (Z.div_mod P 40 ltac:(lia)) as Hdm.
  pose proof (Z.mod_pos_bound P 40 eq_refl) as Hrem.
  set (q := P / 40) in *.
  assert (Hlow : q * 2 ^ 58 <= N / 2 ^ j * 2 ^ j).
  { assert (q * 2 ^ (58 - j) <= N / 2 ^ j).
    { apply Z.div_le_lower_bound; [lia |].
      rewrite Z.mul_assoc, (Z.mul_comm (2 ^ j)), <- Z.mul_assoc, <- E58.
      subst N. change (2 ^ 58) with 288230376151711744. lia. }
    rewrite E58. nia. }
  assert (Hup : N / 2 ^ j * 2 ^ j <= N).
  { rewrite Z.mul_comm. apply Z.mul_div_le. lia. }
  symmetry. apply (Z.div_unique _ _ _ (r - q * 2 ^ 58)); [| lia].
  left. subst N. change (2 ^ 58) with 288230376151711744 in *.
  change (2 ^ 32) with 4294967296 in *. lia.
Qed.

(** The integer part of the product of a [double] of integer value
    [P < 2^32] with the constant 0.025 is [P / 40]. *)
Lemma mul_0_025_trunc f P :
  normal 53 f -> has_value f P 0 -> 0 < P < 2 ^ 32 ->
  trunc (double_mul f double_0_025) = Some (P / 40).
Proof.
  intros (m & e & -> & Hm) Hv HP.
  apply has_value_at in Hv. destruct Hv as (m' & e' & E & Hv).
  injection E as <- <-.
  change (2 ^ (53 - 1)) with 4503599627370496 in Hm.
  change (2 ^ 53) with 9007199254740992 in Hm.
  change (2 ^ 32) with 4294967296 in HP.
  (* the exponent is negative and the mantissa is P shifted *)
  assert (He : e < 0).
  { destruct (Z.lt_ge_cases e 0) as [Hlt | Hge]; [exact Hlt |].
    specialize (Hv 0 Hge (Z.le_refl 0)). rewrite !Z.sub_0_r in Hv.
    assert (0 < 2 ^ e) by (apply Z.pow_pos_nonneg; lia). nia. }
  specialize (Hv e (Z.le_refl e) ltac:(lia)).
  rewrite Z.sub_diag, Z.pow_0_r, Z.mul_1_r in Hv.
  set (k := 0 - e) in *.
  assert (Pk : 0 < 2 ^ k) by (apply Z.pow_pos_nonneg; lia).
  set (n := (m * 7205759403792794)%positive).
  change (double_mul (S754_finite false m e) double_0_025)
    with (binary_round_aux 53 1024 false (Zpos n) (e + -58) loc_Exact).
  set (N := Z.to_pos (P * 7205759403792794)).
  assert (HN : Zpos N = P * 7205759403792794) by (subst N; rewrite Z2Pos.id; lia).
  assert (Hn : Zpos n = Zpos N * 2 ^ k)
    by (subst n; rewrite Pos2Z.inj_mul, Hv, HN; ring).
  assert (Dn : Zpos (digits2_pos n) = Zpos (digits2_pos N) + k)
    by (apply digits2_pos_shift; [lia | exact Hn]).
  pose proof (digits2_pos_bounds N) as [Lo Hi].
  assert (DN : 53 <= Zpos (digits2_pos N) <= 85).
  { split.
    - destruct (Z.le_gt_cases 53 (Zpos (digits2_pos N))) as [H | H]; [exact H |].
      assert (2 ^ Zpos (digits2_pos N) <= 2 ^ 52) by (apply Z.pow_le_mono_r; lia).
      change (2 ^ 52) with 4503599627370496 in *. lia.
    - apply digits2_pos_le. change (2 ^ 85) with 38685626227668133590597632. lia. }
  set (j := Zpos (digits2_pos N) - 53) in *.
  destruct (binary_round_aux_pos 53 1024 eq_refl n (e + -58))
    as (r & m2 & e2 & (Hb & Hmod & _) & -> & He2 & Hr & _); try lia.
  assert (Hval : has_value (S754_finite false m2 e2) r (e + -58)).
  { apply (has_value_base _ _ _ _ (e + -58)); try lia.
    rewrite Hr, Z.sub_diag. cbn. lia. }
  rewrite (trunc_has_value _ _ _ Hval) by lia. f_equal.
  unfold ulp_shift in Hb, Hmod. rewrite Dn in Hb, Hmod.
  replace (Z.max 0 (Zpos (digits2_pos N) + k - 53)) with (j + k) in Hb, Hmod by lia.
  assert (Pj : 0 < 2 ^ j) by (apply Z.pow_pos_nonneg; lia).
  rewrite Z.pow_add_r in Hb, Hmod by lia.
  rewrite Hn, Z.div_mul_cancel_r in Hb by lia.
  apply Z.mod_divide in Hmod; [| lia]. destruct Hmod as [c Hc].
  replace (- (e + -58)) with (58 + k) by lia.
  rewrite Z.pow_add_r by lia.
  replace r with (c * 2 ^ j * 2 ^ k) by lia.
  rewrite Z.div_mul_cancel_r by lia.
  apply (scaled_floor P j); try lia.
  rewrite <- HN. nia.
Qed.

Lemma rounded_bounds prec (n : positive) (R : Z) :
  0 < prec -> rounded prec n R ->
  0 < R <= 2 * Zpos n /\
  (Zpos (digits2_pos n) <= prec -> R = Zpos n).
Proof.
  unfold rounded, ulp_shift. intros Hprec (Hb & _ & Hexact).
  pose proof (digits2_pos_bounds n) as [Lo Hi].
  set (d := Zpos (digits2_pos n)) in *.
  destruct (Z.le_gt_cases d prec) as [Hd | Hd].
  - rewrite Z.max_l in Hexact by lia. rewrite Z.pow_0_r, Z.mod_1_r in Hexact.
    rewrite (Hexact eq_refl). split; [lia | reflexivity].
  - rewrite Z.max_r in Hb by lia. split; [| lia].
    assert (Pu : 0 < 2 ^ (d - prec)) by (apply Z.pow_pos_nonneg; lia).
    assert (Hu : 2 ^ (d - prec) <= 2 ^ (d - 1)) by (apply Z.pow_le_mono_r; lia).
    assert (1 <= Zpos n / 2 ^ (d - prec)) by (apply Z.div_le_lower_bound; lia).
    pose proof (Z.mul_div_le (Zpos n) (2 ^ (d - prec)) Pu). nia.
Qed.

Lemma uint32_of_float_value f R :
  has_value f R 0 -> 0 <= R < 2 ^ 32 -> uint32_of_float f = Some R.
Proof.
  intros Hv HR. unfold uint32_of_float.
  rewrite (trunc_has_value _ _ _ Hv) by lia. cbn [bind].
  change (2 ^ (- 0)) with 1. rewrite Z.div_1_r.
  destruct (Z.leb_spec 0 R); [| lia].
  destruct (Z.ltb_spec R modulus); [reflexivity | unfold modulus in *; lia].
Qed.

(** The pulse width computed from a [float] of integer value [R]. *)
Lemma width_of_float f R :
  normal 24 f -> has_value f R 0 -> 0 < R < 2 ^ 32 ->
  uint32_of_float (double_mul (double_of_float f) double_0_025)
  = Some (R / 40).
Proof.
  intros Hn Hv HR.
  destruct (double_of_float_value f R Hn Hv) as (Hn2 & Hv2);
    [change (2 ^ 33) with 8589934592; change (2 ^ 32) with 4294967296 in HR; lia |].
  unfold uint32_of_float. rewrite (mul_0_025_trunc _ _ Hn2 Hv2 HR). cbn [bind].
  assert (0 <= R / 40 < modulus).
  { change (2 ^ 32) with 4294967296 in HR. unfold modulus.
    change (2 ^ 32) with 4294967296.
    split; [apply Z.div_pos; lia | apply Z.div_lt_upper_bound; lia]. }
  destruct (Z.leb_spec 0 (R / 40)); [| lia].
  destruct (Z.ltb_spec (R / 40) modulus); [reflexivity | lia].
Qed.

(** The integers that a [float] holds exactly: zero and the results of
    rounding to 24 bits. *)
Definition float_exact (P : Z) : Prop :=
  P = 0 \/ exists n, rounded 24 n P.

Lemma float_of_exact P :
  float_exact P -> 0 < P < 2 ^ 32 ->
  normal 24 (float_of_uint32 P) /\ has_value (float_of_uint32 P) P 0.
Proof.
  intros [-> | (n & Hn)] HP; [lia |].
  destruct P as [| p | p]; try lia.
  destruct (float_of_uint32_pos p (proj2 HP)) as (R & Hr & Hv & Hnorm).
  rewrite (rounded_idem 24 eq_refl n (Zpos p) p R Hn eq_refl Hr) in Hv.
  now split.
Qed.

Section BringUp.

Variable SERVO_FREQUENCY : Z.
Hypothesis frequency_pos : 0 < SERVO_FREQUENCY.

(** [InitServoMtrs] returns: its result is the quotient
    clock / 64 / frequency as a [float] holds it. *)
Lemma InitServoMtrs_returns (clk stuff : Z) (st : State) :
  0 <= clk < 2 ^ 32 ->
  exists P st1,
    InitServoMtrs SERVO_FREQUENCY clk stuff st = Some (P, st1) /\
    float_exact P /\ 0 <= P < 2 ^ 32 /\
    (clk / 64 / SERVO_FREQUENCY < 2 ^ 24 -> P = clk / 64 / SERVO_FREQUENCY) /\
    globals st1 = globals st.
Proof.
  intros Hclk. change (2 ^ 32) with 4294967296 in *.
  unfold InitServoMtrs.
  destruct (Z.eqb_spec SERVO_FREQUENCY 0) as [E | _]; [lia |].
  set (q := clk / 64 / SERVO_FREQUENCY).
  assert (Hq : 0 <= q < 2 ^ 26).
  { change (2 ^ 26) with 67108864. subst q. split.
    - apply Z.div_pos; [apply Z.div_pos |]; lia.
    - apply Z.div_lt_upper_bound; [lia |].
      assert (clk / 64 < 67108864) by (apply Z.div_lt_upper_bound; lia). nia. }
  cbv zeta.
  destruct q as [| p | p] eqn:Eq; [| | lia].
  - (* a zero quotient *)
    eexists 0, _. split; [reflexivity |].
    repeat split; try lia. now left.
  - destruct (float_of_uint32_pos p) as (R & Hr & Hv & Hn);
      [change (2 ^ 32) with 4294967296; change (2 ^ 26) with 67108864 in Hq; lia |].
    destruct (rounded_bounds 24 p R eq_refl Hr) as (HR & Hsmall).
    change (2 ^ 26) with 67108864 in Hq.
    assert (HR32 : 0 < R < 2 ^ 32) by (change (2 ^ 32) with 4294967296; lia).
    rewrite (uint32_of_float_value _ R Hv) by lia. cbn [bind].
    rewrite (width_of_float _ R Hn Hv HR32). cbn [bind].
    eexists R, _. split; [reflexivity |].
    split; [right; now exists p |]. split; [lia |]. split; [| reflexivity].
    intros Hlt. apply Hsmall. apply digits2_pos_le. exact Hlt.
Qed.

End BringUp.

(** The range that [main] derives from a period the [float] holds
    exactly. *)
Lemma servo_range_exact (P : Z) (st : State) :
  float_exact P -> 0 <= P < 2 ^ 32 ->
  exists st2,
    servo_range P st = Some st2 /\
    g_StartPosition st2 = P / 40 /\
    g_EndPosition st2 = 5 * (P / 40) /\
    g_ui32AngleIncrement st2 = (4 * (P / 40)) / 100 /\
    g_ui32ServoAngle st2 = P / 40.
Proof.
  intros Hex HP.
  assert (Hs : uint32_of_float
                 (double_mul (double_of_float (float_of_uint32 P)) double_0_025)
               = Some (P / 40)).
  { destruct (Z.eq_dec P 0) as [-> | Hne]; [reflexivity |].
    destruct (float_of_exact P Hex) as (Hn & Hv); [lia |].
    apply width_of_float; assumption || lia. }
  unfold servo_range. rewrite Hs. cbn [bind].
  eexists. split; [reflexivity |].
  cbn [g_StartPosition g_EndPosition g_ui32AngleIncrement g_ui32ServoAngle
       set_StartPosition set_EndPosition set_AngleIncrement set_ServoAngle].
  change (2 ^ 32) with 4294967296 in HP.
  assert (Hq : 0 <= P / 40 < 107374183).
  { split; [apply Z.div_pos; lia | apply Z.div_lt_upper_bound; lia]. }
  assert (E5 : mul32 (P / 40) 5 = 5 * (P / 40)).
  { unfold mul32. rewrite wrap32_small; [lia |].
    unfold in_range, modulus. change (2 ^ 32) with 4294967296. lia. }
  rewrite E5. repeat split.
  unfold div32. rewrite sub32_no_borrow; try (f_equal; lia);
    unfold in_range, modulus; change (2 ^ 32) with 4294967296; lia.
Qed.

(** ** C2: the servo range *)

(** The constant is the binary64 number nearest to 1/40: its neighbour
    below is further away. *)
Lemma double_0_025_nearest :
  double_0_025 = S754_finite false 7205759403792794 (-58) /\
  40 * 7205759403792794 - 2 ^ 58 = 16 /\
  2 ^ 58 - 40 * 7205759403792793 = 24.
Proof. repeat split. Qed.

(** C2 (as stated, refuted).  With a 50 Hz servo frequency and a clock of
    128000 Hz, bring-up returns the period 40, from which [main] derives
    start 1, end 5 and increment (5 - 1) / 100 = 0: the increment is not
    positive although the period is 40. *)
Lemma increment_zero_at_period_40 :
  option_map fst (InitServoMtrs 50 128000 40 initial_state) = Some 40 /\
  option_map g_StartPosition (servo_range 40 initial_state) = Some 1 /\
  option_map g_EndPosition (servo_range 40 initial_state) = Some 5 /\
  option_map g_ui32AngleIncrement (servo_range 40 initial_state) = Some 0 /\
  ~ (40 <= 40 -> 0 < g_ui32AngleIncrement (bring_up 40)).
Proof.
  repeat split; try (vm_compute; reflexivity).
  intros H. specialize (H (Z.le_refl 40)). vm_compute in H. discriminate H.
Qed.

(** C2 (amended).  For every clock frequency and positive servo
    frequency, bring-up returns a period P, and [main] derives from it:
    start = floor(P * 0.025) (that is 25 * P / 1000 = P / 40 in integers),
    end = start * 5, increment = (end - start) / 100 in integer division,
    and the angle set to start.  The increment is positive exactly when
    P >= 1000. *)
Theorem servo_range_of_period (SERVO_FREQUENCY clk stuff : Z) (st : State) :
  0 < SERVO_FREQUENCY -> 0 <= clk < 2 ^ 32 ->
  exists P st1 st2,
    InitServoMtrs SERVO_FREQUENCY clk stuff st = Some (P, st1) /\
    (clk / 64 / SERVO_FREQUENCY < 2 ^ 24 -> P = clk / 64 / SERVO_FREQUENCY) /\
    servo_range P st1 = Some st2 /\
    g_StartPosition st2 = 25 * P / 1000 /\
    g_StartPosition st2 = P / 40 /\
    g_EndPosition st2 = g_StartPosition st2 * 5 /\
    g_ui32AngleIncrement st2
    = (g_EndPosition st2 - g_StartPosition st2) / 100 /\
    (0 < g_ui32AngleIncrement st2 <-> 1000 <= P) /\
    g_ui32ServoAngle st2 = g_StartPosition st2.
Proof.
  intros Hf Hclk.
  destruct (InitServoMtrs_returns SERVO_FREQUENCY Hf clk stuff st Hclk)
    as (P & st1 & HI & Hex & HP & Hq & _).
  destruct (servo_range_exact P st1 Hex HP) as (st2 & HR & Hs & He & Hi & Ha).
  exists P, st1, st2.
  assert (E40 : 25 * P / 1000 = P / 40).
  { change 1000 with (25 * 40). apply Z.div_mul_cancel_l; lia. }
  rewrite Hs, He, Hi, Ha, E40.
  repeat apply conj; try assumption; try reflexivity; try lia.
  - f_equal. lia.
  - intros Hpos.
    destruct (Z.lt_ge_cases P 1000) as [Hlt | Hge]; [| exact Hge].
    assert (P / 40 < 25) by (apply Z.div_lt_upper_bound; lia).
    assert (0 <= P / 40) by (apply Z.div_pos; lia).
    rewrite Z.div_small in Hpos; lia.
  - intros Hge.
    assert (25 <= P / 40) by (apply Z.div_le_lower_bound; lia).
    assert (1 <= 4 * (P / 40) / 100) by (apply Z.div_le_lower_bound; lia).
    lia.
Qed.

Lemma servo_range_of_period_witness :
  exists P st1 st2,
    InitServoMtrs 50 120000000 37500 initial_state = Some (P, st1) /\
    servo_range P st1 = Some st2 /\
    g_StartPosition st2 = P / 40 /\
    (0 < g_ui32AngleIncrement st2 <-> 1000 <= P).
Proof.
  destruct (servo_range_of_period 50 120000000 37500 initial_state)
    as (P & st1 & st2 & HI & _ & HR & _ & Hs & _ & _ & Hp & _).
  - reflexivity.
  - split; [discriminate | reflexivity].
  - exists P, st1, st2. exact (conj HI (conj HR (conj Hs Hp))).
Defined.

(** * Further properties of the program *)

(** ** The indicators

    What the recorded [GPIOPinWrite] calls leave on the four indicator
    pins: a write sets the addressed pins to the given value and leaves
    the other pins alone.  A pin name stands for the pin on its own port,
    as the program always pairs them. *)

Definition led_pin_eqb (a b : led_pin) : bool :=
  match a, b with
  | LED1_PIN, LED1_PIN | LED2_PIN, LED2_PIN
  | LED3_PIN, LED3_PIN | LED4_PIN, LED4_PIN => true
  | _, _ => false
  end.

Definition led_after (c : HwCall) (lit : led_pin -> bool) : led_pin -> bool :=
  match c with
  | GPIOPinWrite _ pins val =>
      fun pin => if existsb (led_pin_eqb pin) pins
                 then existsb (led_pin_eqb pin) val
                 else lit pin
  | _ => lit
  end.

(** The indicators after the calls [calls], from the indicators [init]. *)
Definition leds (init : led_pin -> bool) (calls : list HwCall)
  : led_pin -> bool :=
  fold_left (fun lit c => led_after c lit) calls init.

(** The indicator that an LED number selects. *)
Definition led_of_num (n : Z) : option led_pin :=
  match n with
  | 1 => Some LED1_PIN
  | 2 => Some LED2_PIN
  | 3 => Some LED3_PIN
  | 4 => Some LED4_PIN
  | _ => None
  end.

Lemma led_pin_eqb_eq a b : led_pin_eqb a b = true <-> a = b.
Proof. destruct a, b; cbn; split; intros H; congruence. Qed.

Lemma leds_app init l1 l2 : leds init (l1 ++ l2) = leds (leds init l1) l2.
Proof. apply fold_left_app. Qed.

Lemma leds_no_gpio l : forall init,
  forallb (fun e => negb (is_gpio_write e)) l = true -> leds init l = init.
Proof.
  induction l as [| c l IH]; intros init H; [reflexivity |].
  cbn in H. apply andb_true_iff in H. destruct H as [Hc Hl].
  cbn [leds fold_left]. fold (leds (led_after c init) l).
  rewrite (IH _ Hl). destruct c; try reflexivity. discriminate Hc.
Qed.

Lemma TurnOnLED_cases n st :
  match led_of_num n with
  | Some pin =>
      exists port, hw (TurnOnLED n st) = hw st ++ [GPIOPinWrite port [pin] [pin]]
  | None =>
      hw (TurnOnLED n st)
      = hw st ++ [GPIOPinWrite LED_PORT1 [LED1_PIN; LED2_PIN]
                    [LED1_PIN; LED2_PIN];
                  GPIOPinWrite LED_PORT2 [LED3_PIN; LED4_PIN]
                    [LED3_PIN; LED4_PIN]]
  end.
Proof.
  destruct n as [| [[[]|[]|]|[[]|[]|]|] | p]; cbn;
    try (eexists; reflexivity); now rewrite <- app_assoc.
Qed.

Lemma TurnOffLED_cases n st :
  match led_of_num n with
  | Some pin =>
      exists port, hw (TurnOffLED n st) = hw st ++ [GPIOPinWrite port [pin] []]
  | None =>
      hw (TurnOffLED n st)
      = hw st ++ [GPIOPinWrite LED_PORT1 [LED1_PIN; LED2_PIN] [];
                  GPIOPinWrite LED_PORT2 [LED3_PIN; LED4_PIN] []]
  end.
Proof.
  destruct n as [| [[[]|[]|]|[[]|[]|]|] | p]; cbn;
    try (eexists; reflexivity); now rewrite <- app_assoc.
Qed.

Lemma LED_globals n st :
  globals (TurnOnLED n st) = globals st /\ globals (TurnOffLED n st) = globals st.
Proof. destruct n as [| [[[]|[]|]|[[]|[]|]|] | p]; split; reflexivity. Qed.

(** X1.  [TurnOnLED n] for n = 1..4 lights indicator n and leaves the
    other three as they were; for every other number (0, 5, ...) it lights
    all four.  It changes no global. *)
Theorem TurnOnLED_lights (n : Z) (st : State) (init : led_pin -> bool)
  (pin : led_pin) :
  leds init (hw (TurnOnLED n st)) pin
  = match led_of_num n with
    | Some p => if led_pin_eqb pin p then true else leds init (hw st) pin
    | None => true
    end
  /\ globals (TurnOnLED n st) = globals st.
Proof.
  split; [| apply LED_globals].
  pose proof (TurnOnLED_cases n st) as H.
  destruct (led_of_num n) as [p |].
  - destruct H as (port & ->). rewrite leds_app. cbn.
    rewrite !orb_false_r. now destruct (led_pin_eqb pin p).
  - rewrite H, leds_app. now destruct pin.
Qed.

(** X2.  [TurnOffLED n] for n = 1..4 puts indicator n out and leaves the
    other three as they were; for every other number it puts all four
    out.  So [TurnOffLED n] undoes [TurnOnLED n] on an indicator that was
    out, and [TurnOffLED 5] leaves all indicators out whatever came
    before. *)
Theorem TurnOffLED_darkens (n : Z) (st : State) (init : led_pin -> bool)
  (pin : led_pin) :
  leds init (hw (TurnOffLED n st)) pin
  = match led_of_num n with
    | Some p => if led_pin_eqb pin p then false else leds init (hw st) pin
    | None => false
    end
  /\ (leds init (hw st) pin = false ->
      leds init (hw (TurnOffLED n (TurnOnLED n st))) pin = false)
  /\ globals (TurnOffLED n st) = globals st.
Proof.
  assert (K : forall s,
             leds init (hw (TurnOffLED n s)) pin
             = match led_of_num n with
               | Some p => if led_pin_eqb pin p then false
                           else leds init (hw s) pin
               | None => false
               end).
  { intros s. pose proof (TurnOffLED_cases n s) as H.
    destruct (led_of_num n) as [p |].
    - destruct H as (port & ->). rewrite leds_app. cbn.
      rewrite !orb_false_r. now destruct (led_pin_eqb pin p).
    - rewrite H, leds_app. now destruct pin. }
  split; [apply K |]. split; [| apply LED_globals].
  intros Hoff. rewrite K.
  pose proof (TurnOnLED_cases n st) as H.
  destruct (led_of_num n) as [p |]; [| reflexivity].
  destruct H as (port & ->). rewrite leds_app. cbn.
  rewrite !orb_false_r. now destruct (led_pin_eqb pin p).
Qed.

Lemma TurnOffLED_darkens_witness :
  leds (fun _ => false) (hw (TurnOffLED 2 (TurnOnLED 2 initial_state))) LED2_PIN
  = false.
Proof.
  exact (proj1 (proj2 (TurnOffLED_darkens 2 initial_state (fun _ => false)
                         LED2_PIN)) eq_refl).
Defined.

(** ** The heartbeat, from any counter value *)

Lemma ticks_succ_r n st : ticks (N.succ n) st = ticks n (SysTickIntHandler st).
Proof. unfold ticks. apply N.iter_succ_r. Qed.

Lemma ticks_from n st :
  0 <= g_SysTickCount st <= 5 ->
  g_SysTickCount (ticks n st) = (g_SysTickCount st + Z.of_N n) mod 6 /\
  g_LED4On (ticks n st)
  = xorb (g_LED4On st) (Z.odd ((g_SysTickCount st + Z.of_N n) / 6)).
Proof.
  intros Hc. set (c := g_SysTickCount st) in *.
  induction n as [| n IH] using N.peano_ind.
  - cbn. rewrite Z.add_0_r.
    destruct (Z.eq_dec c 5) as [E | N].
    + fold c. rewrite E. cbn. now destruct (g_LED4On st).
    + rewrite Z.mod_small, Z.div_small by lia. cbn. fold c.
      now destruct (g_LED4On st).
  - destruct IH as (Hk & Hl).
    rewrite ticks_succ, N2Z.inj_succ.
    set (k := c + Z.of_N n) in *.
    assert (0 <= k) by (pose proof (N2Z.is_nonneg n); lia).
    replace (c + Z.succ (Z.of_N n)) with (Z.succ k) by lia.
    pose proof (Z.mod_pos_bound k 6 eq_refl) as Hm.
    pose proof (Z.div_mod k 6) as Hd.
    destruct (Z.eq_dec (k mod 6) 5) as [E5 | N5].
    + assert (Hq : Z.succ k / 6 = k / 6 + 1).
      { symmetry. apply (Z.div_unique _ _ _ 0); lia. }
      assert (Hr : Z.succ k mod 6 = 0).
      { symmetry. apply (Z.mod_unique _ _ (k / 6 + 1)); lia. }
      rewrite SysTick_reached by lia.
      cbn [g_SysTickCount g_LED4On set_SysTickCount set_LED4On call].
      rewrite Hq, Hr, Hl. split; [reflexivity |].
      rewrite Z.odd_add. cbn.
      destruct (g_LED4On st), (Z.odd (k / 6)); reflexivity.
    + assert (Hq : Z.succ k / 6 = k / 6).
      { symmetry. apply (Z.div_unique _ _ _ (k mod 6 + 1)); lia. }
      assert (Hr : Z.succ k mod 6 = k mod 6 + 1).
      { symmetry. apply (Z.mod_unique _ _ (k / 6)); lia. }
      rewrite SysTick_below by lia.
      cbn [g_SysTickCount g_LED4On set_SysTickCount].
      rewrite Hq, Hr, Hl, Hk. split; [| reflexivity].
      apply wrap32_small. unfold in_range, modulus. lia.
Qed.

Lemma SysTick_bounded st :
  0 <= g_SysTickCount st -> 0 <= g_SysTickCount (SysTickIntHandler st) <= 5.
Proof.
  intros H. destruct (Z.lt_ge_cases (g_SysTickCount st) 5) as [Hlt | Hge].
  - rewrite SysTick_below by exact Hlt. cbn.
    rewrite wrap32_small; [lia | unfold in_range, modulus; lia].
  - rewrite SysTick_reached by exact Hge. cbn. lia.
Qed.

(** X3.  Whatever non-negative value the tick counter holds, after one
    tick or more it is between 0 and 5, so its increment never overflows;
    and from a counter [c] between 0 and 5, after [n] ticks the counter is
    (c + n) mod 6 and the indicator state has flipped (c + n) / 6 times. *)
Theorem heartbeat_from_any_counter (n : N) (st : State) :
  0 <= g_SysTickCount st ->
  0 <= g_SysTickCount (ticks (N.succ n) st) <= 5 /\
  (g_SysTickCount st <= 5 ->
   g_SysTickCount (ticks n st) = (g_SysTickCount st + Z.of_N n) mod 6 /\
   g_LED4On (ticks n st)
   = xorb (g_LED4On st) (Z.odd ((g_SysTickCount st + Z.of_N n) / 6))).
Proof.
  intros H0. split.
  - rewrite ticks_succ_r.
    pose proof (SysTick_bounded st H0) as Hb.
    destruct (ticks_from n (SysTickIntHandler st) Hb) as (-> & _).
    pose proof (Z.mod_pos_bound
                  (g_SysTickCount (SysTickIntHandler st) + Z.of_N n) 6 eq_refl).
    lia.
  - intros H5. apply ticks_from. lia.
Qed.

Lemma heartbeat_from_any_counter_witness :
  g_SysTickCount (ticks 4 (set_SysTickCount 4 initial_state)) = (4 + 4) mod 6 /\
  0 <= g_SysTickCount (ticks 1 (set_SysTickCount 4294967295 initial_state)) <= 5.
Proof.
  split.
  - refine (proj1 (proj2 (heartbeat_from_any_counter 4
                            (set_SysTickCount 4 initial_state) _) _)).
    + cbn. lia.
    + cbn. lia.
  - refine (proj1 (heartbeat_from_any_counter 0
                     (set_SysTickCount 4294967295 initial_state) _)).
    cbn. lia.
Defined.

(** ** The indicator state and the indicator *)

(** [mirrors init st]: indicator 4 shows what [g_LED4On] says. *)
Definition mirrors (init : led_pin -> bool) (st : State) : Prop :=
  leds init (hw st) LED4_PIN = g_LED4On st.

Lemma Menu_leds init c st : leds init (hw (Menu c st)) = leds init (hw st).
Proof.
  rewrite Menu_hw, leds_app. apply leds_no_gpio, Menu_calls_no_gpio.
Qed.

Lemma SysTick_leds init st pin :
  leds init (hw (SysTickIntHandler st)) pin
  = if (5 <=? g_SysTickCount st) && led_pin_eqb pin LED4_PIN
    then negb (g_LED4On st)
    else leds init (hw st) pin.
Proof.
  rewrite SysTick_hw, leds_app.
  destruct (5 <=? g_SysTickCount st); [| reflexivity].
  destruct pin, (g_LED4On st); reflexivity.
Qed.

Lemma Console_leds init status rx st :
  leds init (hw (ConsoleIntHandler status rx st)) = leds init (hw st).
Proof.
  destruct (ConsoleIntHandler_inline status rx st) as (st1 & -> & _ & Hh & _).
  rewrite Menu_leds, Hh, leds_app. reflexivity.
Qed.

Lemma Console_heartbeat status rx st :
  g_SysTickCount (ConsoleIntHandler status rx st) = g_SysTickCount st /\
  g_LED4On (ConsoleIntHandler status rx st) = g_LED4On st.
Proof.
  set (c := char_of_int32 rx).
  set (st1 := call (UARTCharPutNonBlocking c)
                (set_CharConsole c (call (UARTIntClear status) st))).
  change (ConsoleIntHandler status rx st) with (Menu c st1).
  destruct (Menu_frame c st1) as (_ & -> & -> & _). now split.
Qed.

Lemma handle_mirrors init i st : mirrors init st -> mirrors init (handle i st).
Proof.
  unfold mirrors. intros H. destruct i as [| status rx]; cbn [handle].
  - rewrite SysTick_leds. cbn [led_pin_eqb]. rewrite andb_true_r.
    destruct (Z.leb_spec 5 (g_SysTickCount st)) as [Hc | Hc].
    + rewrite SysTick_reached by exact Hc. reflexivity.
    + rewrite SysTick_below by exact Hc. exact H.
  - rewrite Console_leds, H. symmetry. apply Console_heartbeat.
Qed.

Lemma handle_other_leds init i st pin :
  pin <> LED4_PIN -> leds init (hw (handle i st)) pin = leds init (hw st) pin.
Proof.
  intros Hp. destruct i as [| status rx]; cbn [handle].
  - rewrite SysTick_leds.
    destruct (led_pin_eqb pin LED4_PIN) eqn:E;
      [apply led_pin_eqb_eq in E; contradiction |].
    now rewrite andb_false_r.
  - now rewrite Console_leds.
Qed.

Lemma service_mirrors init irqs : forall st,
  mirrors init st -> mirrors init (service irqs st).
Proof.
  unfold service. induction irqs as [| i irqs IH]; intros st H; [exact H |].
  cbn [fold_left]. apply IH. now apply handle_mirrors.
Qed.

Lemma loop_body_mirrors init st : mirrors init st -> mirrors init (loop_body st).
Proof.
  unfold mirrors, loop_body. intros H.
  destruct (g_ConsoleFlag st); [| exact H].
  rewrite Menu_leds, H.
  now destruct (Menu_frame (g_CharConsole st) st) as (_ & _ & -> & _).
Qed.

(** X4.  The indicator state [g_LED4On] and indicator 4 stay in step: if
    indicator 4 shows what [g_LED4On] says, it still does after every
    interrupt handler, every turn of the main loop and at the exit of the
    loop; a tick that flips re-establishes the agreement by itself; and no
    handler touches indicators 1 to 3. *)
Theorem heartbeat_indicator_in_step (init : led_pin -> bool) (st : State) :
  (5 <= g_SysTickCount st -> mirrors init (SysTickIntHandler st)) /\
  (forall i pin, pin <> LED4_PIN ->
     leds init (hw (handle i st)) pin = leds init (hw st) pin) /\
  (mirrors init st ->
   (forall i, mirrors init (handle i st)) /\
   mirrors init (loop_body st) /\
   forall sched st', main_loop sched st = Some st' -> mirrors init st').
Proof.
  split; [| split].
  - intros Hc. unfold mirrors. rewrite SysTick_leds. cbn [led_pin_eqb].
    destruct (Z.leb_spec 5 (g_SysTickCount st)); [| lia].
    now rewrite SysTick_reached.
  - intros i pin Hp. now apply handle_other_leds.
  - intros H. split; [| split].
    + intros i. now apply handle_mirrors.
    + now apply loop_body_mirrors.
    + intros sched. revert st H.
      induction sched as [| irqs sched IH]; intros st H st'; cbn [main_loop];
        destruct (g_Quit st); intros E; try discriminate;
        try (injection E as <-; exact H).
      apply (IH (service irqs (loop_body st))); [| exact E].
      now apply service_mirrors, loop_body_mirrors.
Qed.

Lemma heartbeat_indicator_in_step_witness :
  mirrors (fun _ => false)
    (handle SysTick (ticks 5 initial_state)).
Proof.
  refine (proj1 (proj2 (proj2 (heartbeat_indicator_in_step (fun _ => false)
                                 (ticks 5 initial_state))) _) SysTick).
  reflexivity.
Defined.

(** ** Ticks and console bytes do not interact *)

Definition tick_count (irqs : list Interrupt) : N :=
  fold_right (fun i n => match i with SysTick => N.succ n | _ => n end)
    0%N irqs.

(** The bytes received, in order of arrival. *)
Definition bytes (irqs : list Interrupt) : list ascii :=
  flat_map (fun i => match i with
                     | SysTick => []
                     | ConsoleRx _ rx => [char_of_int32 rx]
                     end) irqs.

Definition dispatch (cs : list ascii) : Stmt :=
  fun st => fold_left (fun s c => Menu c s) cs st.

Definition heartbeat_view (st : State) := (g_SysTickCount st, g_LED4On st).

Definition servo_view (st : State) :=
  (g_ui32ServoAngle st, g_Quit st, g_StartPosition st, g_EndPosition st,
   g_ui32AngleIncrement st).

Lemma SysTick_view st1 st2 :
  heartbeat_view st1 = heartbeat_view st2 ->
  heartbeat_view (SysTickIntHandler st1) = heartbeat_view (SysTickIntHandler st2).
Proof.
  unfold heartbeat_view. intros H. injection H as Hc Hl.
  destruct (Z.lt_ge_cases (g_SysTickCount st1) 5) as [H5 | H5].
  - rewrite (SysTick_below st1), (SysTick_below st2) by lia. cbn. congruence.
  - rewrite (SysTick_reached st1), (SysTick_reached st2) by lia. cbn. congruence.
Qed.

Lemma ticks_view n : forall st1 st2,
  heartbeat_view st1 = heartbeat_view st2 ->
  heartbeat_view (ticks n st1) = heartbeat_view (ticks n st2).
Proof.
  induction n as [| n IH] using N.peano_ind; intros st1 st2 H; [exact H |].
  rewrite !ticks_succ. apply SysTick_view, IH, H.
Qed.

Lemma Menu_view c st1 st2 :
  servo_view st1 = servo_view st2 ->
  servo_view (Menu c st1) = servo_view (Menu c st2).
Proof.
  unfold servo_view. intros H. injection H as Ha Hq Hs He Hi.
  destruct (Menu_ext c st1 st2 Ha Hi Hs He Hq) as (-> & -> & _).
  destruct (Menu_frame c st1) as (_ & _ & _ & _ & _ & _ & -> & -> & ->).
  destruct (Menu_frame c st2) as (_ & _ & _ & _ & _ & _ & -> & -> & ->).
  congruence.
Qed.

Lemma dispatch_view cs : forall st1 st2,
  servo_view st1 = servo_view st2 ->
  servo_view (dispatch cs st1) = servo_view (dispatch cs st2).
Proof.
  unfold dispatch. induction cs as [| c cs IH]; intros st1 st2 H; [exact H |].
  cbn [fold_left]. apply IH, Menu_view, H.
Qed.

Lemma SysTick_servo_view st : servo_view (SysTickIntHandler st) = servo_view st.
Proof.
  unfold servo_view.
  destruct (SysTick_frame st) as (_ & _ & _ & _ & -> & _ & -> & -> & -> & ->).
  reflexivity.
Qed.

Lemma Console_servo_view status rx st :
  servo_view (ConsoleIntHandler status rx st)
  = servo_view (Menu (char_of_int32 rx) st).
Proof.
  set (c := char_of_int32 rx).
  set (st1 := call (UARTCharPutNonBlocking c)
                (set_CharConsole c (call (UARTIntClear status) st))).
  change (ConsoleIntHandler status rx st) with (Menu c st1).
  now apply Menu_view.
Qed.

(** X5.  The heartbeat and the console do not interact: after any
    sequence of interrupts, the tick counter and the indicator state are
    what the ticks alone would leave, and the angle, the quit flag and the
    range are what dispatching the received bytes alone, in order, would
    leave. *)
Theorem interrupts_decouple (irqs : list Interrupt) (st : State) :
  heartbeat_view (service irqs st)
  = heartbeat_view (ticks (tick_count irqs) st) /\
  servo_view (service irqs st) = servo_view (dispatch (bytes irqs) st).
Proof.
  unfold service. revert st.
  induction irqs as [| i irqs IH]; intros st; [split; reflexivity |].
  cbn [fold_left]. destruct (IH (handle i st)) as (Hh & Hs).
  rewrite Hh, Hs. destruct i as [| status rx]; cbn [handle tick_count bytes
    fold_right flat_map app].
  - split.
    + now rewrite ticks_succ_r.
    + apply dispatch_view, SysTick_servo_view.
  - split.
    + apply ticks_view. unfold heartbeat_view.
      now destruct (Console_heartbeat status rx st) as (-> & ->).
    + unfold dispatch at 2. cbn [fold_left].
      apply dispatch_view, Console_servo_view.
Qed.

(** ** The main loop is the handlers, one after the other *)

Lemma service_app irqs1 irqs2 st :
  service (irqs1 ++ irqs2) st = service irqs2 (service irqs1 st).
Proof. unfold service. apply fold_left_app. Qed.

Lemma handle_flag i st :
  g_ConsoleFlag st = false -> g_ConsoleFlag (handle i st) = false.
Proof.
  intros H. destruct i as [| status rx]; cbn [handle].
  - now destruct (SysTick_frame st) as (_ & _ & _ & -> & _).
  - reflexivity.
Qed.

Lemma service_flag irqs : forall st,
  g_ConsoleFlag st = false -> g_ConsoleFlag (service irqs st) = false.
Proof.
  unfold service. induction irqs as [| i irqs IH]; intros st H; [exact H |].
  cbn [fold_left]. apply IH, handle_flag, H.
Qed.

Lemma loop_body_idle st : g_ConsoleFlag st = false -> loop_body st = st.
Proof. unfold loop_body. now intros ->. Qed.

(** X6.  With the console flag clear, as it is when [main] enters the
    loop, the test of the flag in the loop never dispatches: the state at
    the exit of the loop is the state left by the interrupt handlers of
    the turns taken, one after the other, and the quit flag was clear
    before each of these turns.  Every received byte is thus dispatched
    exactly once, by its handler. *)
Theorem main_loop_is_service (sched : list (list Interrupt)) (st st' : State) :
  g_ConsoleFlag st = false ->
  main_loop sched st = Some st' ->
  exists k,
    (k <= List.length sched)%nat /\
    st' = service (List.concat (firstn k sched)) st /\
    g_ConsoleFlag st' = false /\
    forall j, (j < k)%nat ->
      g_Quit (service (List.concat (firstn j sched)) st) = false.
Proof.
  revert st. induction sched as [| irqs sched IH]; intros st Hf; cbn [main_loop];
    destruct (g_Quit st) eqn:Q; intros E; try discriminate;
    try (injection E as <-; exists 0%nat; repeat split;
         [cbn; lia | assumption | intros j Hj; lia]).
  rewrite (loop_body_idle st Hf) in E.
  destruct (IH (service irqs st) (service_flag irqs st Hf) E)
    as (k & Hk & -> & Hf' & Hq).
  exists (S k). cbn [firstn List.concat List.length]. rewrite service_app.
  repeat split; try lia; try assumption.
  intros [| j] Hj; [exact Q |].
  cbn [firstn List.concat]. rewrite service_app. apply Hq. lia.
Qed.

Lemma main_loop_is_service_witness :
  exists k,
    (k <= 3)%nat /\
    service (List.concat [[SysTick; ConsoleRx 0 119]; [ConsoleRx 0 81]])
      initial_state
    = service (List.concat
                 (firstn k [[SysTick; ConsoleRx 0 119]; [ConsoleRx 0 81];
                            [ConsoleRx 0 119]])) initial_state.
Proof.
  assert (E : main_loop
                [[SysTick; ConsoleRx 0 119]; [ConsoleRx 0 81]; [ConsoleRx 0 119]]
                initial_state
              = Some (service
                        (List.concat [[SysTick; ConsoleRx 0 119]; [ConsoleRx 0 81]])
                        initial_state))
    by (vm_compute; reflexivity).
  destruct (main_loop_is_service _ initial_state _ eq_refl E)
    as (k & Hk & Hs & _).
  exists k. split; [exact Hk | exact Hs].
Defined.

(** ** Only a received ['Q'] ends the loop *)






(** ** Increase and decrease cancel *)

Lemma repeat_s_angle n st :
  in_range (g_ui32ServoAngle st) ->
  g_ui32ServoAngle (repeat_cmd "s" n st)
  = wrap32 (g_ui32ServoAngle st - Z.of_N n * g_ui32AngleIncrement st).
Proof.
  intros Hr.
  induction n as [| n IH] using N.peano_ind.
  - cbn. rewrite Z.sub_0_r. symmetry. now apply wrap32_small.
  - rewrite repeat_cmd_succ, Menu_s_angle, IH.
    destruct (repeat_cmd_frame "s" n st) as (_ & _ & _ & _ & _ & _ & _ & _ & ->).
    unfold wrap32. rewrite Zminus_mod_idemp_l. f_equal. lia.
Qed.

Lemma repeat_cmd_range c n st :
  In c ["w"; "s"]%char -> in_range (g_ui32ServoAngle st) ->
  in_range (g_ui32ServoAngle (repeat_cmd c n st)).
Proof.
  intros Hc Hr. destruct Hc as [<- | [<- | []]].
  - rewrite repeat_w_angle by exact Hr. apply wrap32_range.
  - rewrite repeat_s_angle by exact Hr. apply wrap32_range.
Qed.

(** X8.  Increase and decrease are inverse to each other on the angle,
    also across the wrap at 2^32: [n] increase commands followed by [n]
    decrease commands, or the reverse, leave the angle where it was. *)
Theorem increase_decrease_cancel (n : N) (st : State) :
  in_range (g_ui32ServoAngle st) ->
  g_ui32ServoAngle (repeat_cmd "s" n (repeat_cmd "w" n st))
  = g_ui32ServoAngle st /\
  g_ui32ServoAngle (repeat_cmd "w" n (repeat_cmd "s" n st))
  = g_ui32ServoAngle st.
Proof.
  intros Hr. split.
  - rewrite repeat_s_angle by (apply repeat_cmd_range; [cbn; tauto | exact Hr]).
    rewrite repeat_w_angle by exact Hr.
    destruct (repeat_cmd_frame "w" n st) as (_ & _ & _ & _ & _ & _ & _ & _ & ->).
    unfold wrap32. rewrite Zminus_mod_idemp_l.
    replace (g_ui32ServoAngle st + Z.of_N n * g_ui32AngleIncrement st
             - Z.of_N n * g_ui32AngleIncrement st)
      with (g_ui32ServoAngle st) by lia.
    now apply wrap32_small.
  - rewrite repeat_w_angle by (apply repeat_cmd_range; [cbn; tauto | exact Hr]).
    rewrite repeat_s_angle by exact Hr.
    destruct (repeat_cmd_frame "s" n st) as (_ & _ & _ & _ & _ & _ & _ & _ & ->).
    unfold wrap32. rewrite Zplus_mod_idemp_l.
    replace (g_ui32ServoAngle st - Z.of_N n * g_ui32AngleIncrement st
             + Z.of_N n * g_ui32AngleIncrement st)
      with (g_ui32ServoAngle st) by lia.
    now apply wrap32_small.
Qed.

Lemma increase_decrease_cancel_witness :
  g_ui32ServoAngle (repeat_cmd "w" 30 (repeat_cmd "s" 30 example_state)) = 937.
Proof.
  refine (proj2 (increase_decrease_cancel 30 example_state _)).
  closed_range.
Defined.

(** ** The servo outputs carry the angle *)

Definition servo_out_eqb (a b : servo_out) : bool :=
  match a, b with
  | SERVO_1, SERVO_1 | SERVO_2, SERVO_2 => true
  | _, _ => false
  end.

Definition pwm_after (c : HwCall) (w : servo_out -> option Z)
  : servo_out -> option Z :=
  match c with
  | PWMPulseWidthSet out v =>
      fun o => if servo_out_eqb o out then Some v else w o
  | _ => w
  end.

(** The pulse width last written to each servo output. *)
Definition pwm_from (init : servo_out -> option Z) (calls : list HwCall)
  : servo_out -> option Z :=
  fold_left (fun w c => pwm_after c w) calls init.

Definition pwm (calls : list HwCall) : servo_out -> option Z :=
  pwm_from (fun _ => None) calls.

(** [pwm_follows st]: both servo outputs carry the value of the angle. *)
Definition pwm_follows (st : State) : Prop :=
  forall out, pwm (hw st) out = Some (g_ui32ServoAngle st).

Definition is_pwm_write (e : HwCall) : bool :=
  match e with
  | PWMPulseWidthSet _ _ => true
  | _ => false
  end.

Lemma pwm_app l1 l2 : pwm (l1 ++ l2) = pwm_from (pwm l1) l2.
Proof. apply fold_left_app. Qed.

Lemma pwm_no_write l : forall init,
  forallb (fun e => negb (is_pwm_write e)) l = true -> pwm_from init l = init.
Proof.
  induction l as [| c l IH]; intros init H; [reflexivity |].
  cbn in H. apply andb_true_iff in H. destruct H as [Hc Hl].
  cbn [pwm_from fold_left]. fold (pwm_from (pwm_after c init) l).
  rewrite (IH _ Hl). destruct c; try reflexivity. discriminate Hc.
Qed.

Lemma pwm_servo_calls init label v out :
  pwm_from init (servo_calls label v) out = Some v.
Proof. now destruct out. Qed.

Definition servo_commands : list ascii := ["w"; "s"; "x"; "e"]%char.

Lemma Menu_pwm_sets c st : In c servo_commands -> pwm_follows (Menu c st).
Proof.
  intros H out. rewrite Menu_hw, pwm_app.
  cbn in H. repeat (destruct H as [<- | H]); try contradiction;
    apply pwm_servo_calls.
Qed.

Lemma Menu_pwm_keeps c st : pwm_follows st -> pwm_follows (Menu c st).
Proof.
  intros H.
  destruct (in_dec ascii_dec c servo_commands) as [Hin | Hout];
    [now apply Menu_pwm_sets |].
  intros out. rewrite Menu_hw, pwm_app.
  assert (K : Menu_calls c st = (if (c =? "M")%char
                                 then map (fun l => UARTprintf l []) menu_text
                                 else [])
              /\ g_ui32ServoAngle (Menu c st) = g_ui32ServoAngle st).
  { unfold Menu_calls, Menu, seq, skip.
    destruct (Ascii.eqb_spec c "w") as [-> | _]; [cbn in Hout; tauto |].
    destruct (Ascii.eqb_spec c "s") as [-> | _]; [cbn in Hout; tauto |].
    destruct (Ascii.eqb_spec c "x") as [-> | _]; [cbn in Hout; tauto |].
    destruct (Ascii.eqb_spec c "e") as [-> | _]; [cbn in Hout; tauto |].
    destruct (c =? "Q")%char, (c =? "M")%char; split; reflexivity. }
  destruct K as (-> & ->).
  rewrite pwm_no_write; [apply H |].
  now destruct (c =? "M")%char.
Qed.

Lemma handle_pwm_keeps i st : pwm_follows st -> pwm_follows (handle i st).
Proof.
  intros H. destruct i as [| status rx]; cbn [handle].
  - intros out. rewrite SysTick_hw, pwm_app.
    destruct (SysTick_frame st) as (_ & _ & _ & _ & _ & _ & _ & _ & _ & ->).
    rewrite pwm_no_write; [apply H |].
    now destruct (5 <=? g_SysTickCount st).
  - set (c := char_of_int32 rx).
    set (st1 := call (UARTCharPutNonBlocking c)
                  (set_CharConsole c (call (UARTIntClear status) st))).
    change (ConsoleIntHandler status rx st) with (Menu c st1).
    apply Menu_pwm_keeps. intros out. subst st1. cbn [hw call set_CharConsole].
    rewrite <- app_assoc, pwm_app. cbn. apply H.
Qed.

Lemma service_pwm_keeps irqs : forall st,
  pwm_follows st -> pwm_follows (service irqs st).
Proof.
  unfold service. induction irqs as [| i irqs IH]; intros st H; [exact H |].
  cbn [fold_left]. apply IH, handle_pwm_keeps, H.
Qed.

Lemma loop_body_pwm_keeps st : pwm_follows st -> pwm_follows (loop_body st).
Proof.
  unfold loop_body. intros H.
  destruct (g_ConsoleFlag st); [now apply Menu_pwm_keeps | exact H].
Qed.

Lemma shutdown_pwm st : pwm_follows (shutdown st).
Proof.
  intros out. destruct (shutdown_spec st) as (-> & _ & _ & ->).
  rewrite pwm_app. unfold shutdown_calls. now destruct out.
Qed.

(** X9.  The two servo outputs always carry the same pulse width, the
    value of the angle: each of the commands w, s, x, e leaves both
    outputs at the new angle, whatever they carried before, and once the
    outputs carry the angle they still do after every command, every
    interrupt handler, at the exit of the main loop and when [main]
    returns. *)
Theorem servo_outputs_follow_angle (st : State) :
  (forall c, In c servo_commands -> pwm_follows (Menu c st)) /\
  pwm_follows (shutdown st) /\
  (pwm_follows st ->
   (forall c, pwm_follows (Menu c st)) /\
   (forall i, pwm_follows (handle i st)) /\
   forall sched st', main_loop sched st = Some st' -> pwm_follows st').
Proof.
  split; [| split].
  - intros c Hc. now apply Menu_pwm_sets.
  - apply shutdown_pwm.
  - intros H. split; [| split].
    + intros c. now apply Menu_pwm_keeps.
    + intros i. now apply handle_pwm_keeps.
    + intros sched. revert st H.
      induction sched as [| irqs sched IH]; intros st H st'; cbn [main_loop];
        destruct (g_Quit st); intros E; try discriminate;
        try (injection E as <-; exact H).
      apply (IH (service irqs (loop_body st))); [| exact E].
      now apply service_pwm_keeps, loop_body_pwm_keeps.
Qed.

Lemma servo_outputs_follow_angle_witness :
  pwm_follows (handle (ConsoleRx 0 77) (Menu "e" example_state)).
Proof.
  refine (proj1 (proj2 (proj2 (proj2 (servo_outputs_follow_angle
                                        (Menu "e" example_state))) _))
            (ConsoleRx 0 77)).
  exact (proj1 (servo_outputs_follow_angle example_state) "e"%char
           (or_intror (or_intror (or_intror (or_introl eq_refl))))).
Defined.

(** ** The range and the sweep *)

(** X10.  The range that bring-up and [main] derive never wraps and is
    ordered: start <= end < 2^32 and 25 * increment <= start.  From the
    start position, up to 100 increase commands add the increment without
    wrapping and stay at or below the end position, the 100th stopping
    less than 100 short of it; and up to 25 decrease commands subtract the
    increment without going below zero. *)
Theorem range_sweep (SERVO_FREQUENCY clk stuff : Z) (st : State) :
  0 < SERVO_FREQUENCY -> 0 <= clk < 2 ^ 32 ->
  exists P st1 st2,
    InitServoMtrs SERVO_FREQUENCY clk stuff st = Some (P, st1) /\
    servo_range P st1 = Some st2 /\
    0 <= g_StartPosition st2 <= g_EndPosition st2 /\
    g_EndPosition st2 < 2 ^ 32 /\
    0 <= 25 * g_ui32AngleIncrement st2 <= g_StartPosition st2 /\
    g_EndPosition st2 - 100
    < g_StartPosition st2 + 100 * g_ui32AngleIncrement st2 /\
    (forall n, (n <= 100)%N ->
       g_ui32ServoAngle (repeat_cmd "w" n st2)
       = g_StartPosition st2 + Z.of_N n * g_ui32AngleIncrement st2 /\
       g_ui32ServoAngle (repeat_cmd "w" n st2) <= g_EndPosition st2) /\
    (forall n, (n <= 25)%N ->
       g_ui32ServoAngle (repeat_cmd "s" n st2)
       = g_StartPosition st2 - Z.of_N n * g_ui32AngleIncrement st2 /\
       0 <= g_ui32ServoAngle (repeat_cmd "s" n st2)).
Proof.
  intros Hf Hclk.
  destruct (InitServoMtrs_returns SERVO_FREQUENCY Hf clk stuff st Hclk)
    as (P & st1 & HI & Hex & HP & _ & _).
  destruct (servo_range_exact P st1 Hex HP) as (st2 & HR & Hs & He & Hi & Ha).
  exists P, st1, st2. rewrite Hs, He, Hi.
  change (2 ^ 32) with 4294967296 in *.
  set (s := P / 40) in *.
  assert (Hs0 : 0 <= s < 107374183).
  { subst s. split; [apply Z.div_pos; lia | apply Z.div_lt_upper_bound; lia]. }
  pose proof (Z.div_mod (4 * s) 100 ltac:(lia)) as Hd.
  pose proof (Z.mod_pos_bound (4 * s) 100 eq_refl) as Hm.
  set (t := 4 * s / 100) in *.
  assert (Hr : in_range (g_ui32ServoAngle st2)).
  { rewrite Ha. unfold in_range, modulus. change (2 ^ 32) with 4294967296. lia. }
  assert (Ht : 0 <= t) by lia.
  repeat apply conj; try assumption; try lia.
  - intros n Hn. apply N2Z.inj_le in Hn. change (Z.of_N 100) with 100 in Hn.
    pose proof (N2Z.is_nonneg n).
    assert (0 <= Z.of_N n * t <= 100 * t) by nia.
    rewrite repeat_w_angle, Ha, Hi by exact Hr.
    rewrite wrap32_small; [split; [reflexivity | lia] |].
    unfold in_range, modulus. change (2 ^ 32) with 4294967296. lia.
  - intros n Hn. apply N2Z.inj_le in Hn. change (Z.of_N 25) with 25 in Hn.
    pose proof (N2Z.is_nonneg n).
    assert (0 <= Z.of_N n * t <= 25 * t) by nia.
    rewrite repeat_s_angle, Ha, Hi by exact Hr.
    rewrite wrap32_small; [split; [reflexivity | lia] |].
    unfold in_range, modulus. change (2 ^ 32) with 4294967296. lia.
Qed.

Lemma range_sweep_witness :
  exists P st1 st2,
    InitServoMtrs 50 120000000 37500 initial_state = Some (P, st1) /\
    servo_range P st1 = Some st2 /\
    g_ui32ServoAngle (repeat_cmd "w" 100 st2)
    = g_StartPosition st2 + 100 * g_ui32AngleIncrement st2.
Proof.
  destruct (range_sweep 50 120000000 37500 initial_state)
    as (P & st1 & st2 & HI & HR & _ & _ & _ & _ & Hw & _).
  - reflexivity.
  - split; [discriminate | reflexivity].
  - exists P, st1, st2.
    exact (conj HI (conj HR (proj1 (Hw 100%N (N.le_refl 100))))).
Defined.

(** ** When the button gate returns *)

Section Gate.

Variables LEFT_BUTTON RIGHT_BUTTON ALL_BUTTONS : Z.

Lemma wait_while_some mask polls : forall actual n,
  actual = mask \/
  (exists j, (j < List.length polls)%nat /\ pressed mask (nth j polls 0)) ->
  exists k, wait_while mask actual polls n = Some k.
Proof.
  induction polls as [| p rest IH]; intros actual n H; cbn [wait_while];
    destruct (Z.eqb_spec actual mask) as [E | N]; try (now eexists).
  - destruct H as [E | (j & Hj & _)]; [contradiction | cbn in Hj; lia].
  - apply IH. destruct H as [E | (j & Hj & Hp)]; [contradiction |].
    destruct j as [| j]; [left; exact Hp | right].
    exists j. cbn in Hj, Hp. split; [lia | exact Hp].
Qed.

Lemma wait_while_more mask polls more : forall actual n k,
  wait_while mask actual polls n = Some k ->
  wait_while mask actual (polls ++ more) n = Some k.
Proof.
  induction polls as [| p rest IH]; intros actual n k; cbn [wait_while app];
    destruct (Z.eqb_spec actual mask) as [E | N]; intros H; try discriminate.
  - destruct more; cbn [wait_while]; destruct (Z.eqb_spec actual mask);
      congruence.
  - exact H.
  - now apply IH.
Qed.

(** X11.  For a requested mask that is one of the three button constants,
    [WaitForButtonPress] returns if and only if the first poll equals the
    mask or some later poll contains all bits of the mask; otherwise it
    polls for ever.  Once it has returned, the polls that would follow
    are not looked at. *)
Theorem WaitForButtonPress_returns_iff (d : Z) (polls : list Z) :
  d = LEFT_BUTTON \/ d = RIGHT_BUTTON \/ d = ALL_BUTTONS ->
  ((exists k,
      WaitForButtonPress LEFT_BUTTON RIGHT_BUTTON ALL_BUTTONS d polls = Some k)
   <->
   (exists j, (j < List.length polls)%nat /\
              ((j = 0%nat /\ nth 0 polls 0 = d) \/
               ((0 < j)%nat /\ Z.land (nth j polls 0) d = d)))) /\
  (forall k more,
     WaitForButtonPress LEFT_BUTTON RIGHT_BUTTON ALL_BUTTONS d polls = Some k ->
     WaitForButtonPress LEFT_BUTTON RIGHT_BUTTON ALL_BUTTONS d (polls ++ more)
     = Some k).
Proof.
  intros Hd. split; [split |].
  - intros (k & H). rewrite (wait_for_known _ _ _ _ _ Hd) in H.
    destruct polls as [| p0 rest]; [discriminate |].
    apply wait_while_inv in H.
    destruct H as [[-> ->] | (j & -> & Hj & _ & Hp & _)].
    + exists 0%nat. split; [cbn; lia | now left].
    + exists (S j). split; [cbn; lia | right]. split; [lia | exact Hp].
  - intros (j & Hj & H). rewrite (wait_for_known _ _ _ _ _ Hd).
    destruct polls as [| p0 rest]; [cbn in Hj; lia |].
    apply wait_while_some.
    destruct H as [[-> E] | [Hpos Hp]]; [now left | right].
    destruct j as [| j]; [lia |]. exists j. cbn in Hj. split; [lia | exact Hp].
  - intros k more H. rewrite (wait_for_known _ _ _ _ polls Hd) in H.
    rewrite (wait_for_known _ _ _ _ (polls ++ more) Hd).
    destruct polls as [| p0 rest]; [discriminate |].
    cbn [app]. now apply wait_while_more.
Qed.

End Gate.

Lemma WaitForButtonPress_returns_iff_witness :
  WaitForButtonPress 1 2 3 1 ([0; 2; 3] ++ [0; 1]) = Some 2%nat.
Proof.
  exact (proj2 (WaitForButtonPress_returns_iff 1 2 3 1 [0; 2; 3]
                  (or_introl eq_refl)) 2%nat [0; 1] eq_refl).
Defined.

(** ** Bytes that are not commands *)

Lemma char_of_int32_periodic rx : char_of_int32 (rx + 256) = char_of_int32 rx.
Proof.
  unfold char_of_int32. replace (rx + 256) with (rx + 1 * 256) by lia.
  now rewrite Z.mod_add.
Qed.

(** X12.  The receive handler does not test what it read: a value whose
    low byte is not one of the six commands is stored, echoed and
    dispatched without effect, leaving the angle, the quit flag and the
    range as they were and making just the two calls of the handler.
    This includes -1, which [UARTCharGetNonBlocking] returns when there is
    no byte to read: byte 255 is stored and echoed.  Only the low byte of
    the value counts. *)
Theorem ConsoleIntHandler_not_a_command (status rx : Z) (st : State) :
  ~ In (char_of_int32 (-1)) commands /\
  char_of_int32 (rx + 256) = char_of_int32 rx /\
  (~ In (char_of_int32 rx) commands ->
   servo_view (ConsoleIntHandler status rx st) = servo_view st /\
   g_CharConsole (ConsoleIntHandler status rx st) = char_of_int32 rx /\
   hw (ConsoleIntHandler status rx st)
   = hw st ++ [UARTIntClear status;
               UARTCharPutNonBlocking (char_of_int32 rx)]).
Proof.
  split; [| split].
  - cbn. intros [E | [E | [E | [E | [E | [E | []]]]]]]; discriminate E.
  - apply char_of_int32_periodic.
  - intros H. apply not_command in H.
    set (c := char_of_int32 rx) in *.
    set (st1 := call (UARTCharPutNonBlocking c)
                  (set_CharConsole c (call (UARTIntClear status) st))).
    change (ConsoleIntHandler status rx st) with (Menu c st1).
    rewrite (Menu_other c st1 H). subst st1. cbn.
    rewrite <- app_assoc. repeat split.
Qed.

Lemma ConsoleIntHandler_not_a_command_witness :
  hw (ConsoleIntHandler 16 (-1) example_state)
  = hw example_state ++ [UARTIntClear 16;
                         UARTCharPutNonBlocking (char_of_int32 (-1))].
Proof.
  destruct (ConsoleIntHandler_not_a_command 16 (-1) example_state)
    as (Hn & _ & H).
  exact (proj2 (proj2 (H Hn))).
Defined.

(** ** The whole of [main] *)














